(** * nasnet-panel: helper scripts

    A shallow embedding of three Python scripts of the repository:

    - [apps/backend/scripts/gen_stubs.py]: generates Go resolver stubs for
      a hard-coded list of missing methods;
    - [apps/backend/scripts/find_missing.py]: reports, per resolver
      interface, which methods have no implementation yet;
    - [libs/star-setup/src/locales/translate_and_update.py]: rewrites the
      locale files and translates them through an external service.

    Python [str] values are modelled as [string]; a character [c] stands
    for the code point [nat_of_ascii c], so the model covers text whose
    code points are below 256.  A file's text is what Python's text mode
    hands to the program (decoded, newlines already translated).  The
    lines the translation tool prints are written as the script has them;
    a character of theirs outside ASCII stands as the bytes of its UTF-8
    form. *)

From Stdlib Require Import Ascii String.
From stdpp Require Import base option list sorting gmap strings pretty.

(** Membership in a list written out. *)
Ltac in_list :=
  repeat first [apply list_elem_of_here | apply list_elem_of_further].

(** ** Python's string methods *)

Module PyStr.

Definition code (c : ascii) : nat := nat_of_ascii c.

(** [str.isspace] on one character: the ASCII whitespace table of
    CPython, then NEL and NBSP. *)
Definition isspace (c : ascii) : bool :=
  let n := code c in
  ((9 <=? n) && (n <=? 13)) || ((28 <=? n) && (n <=? 32))
  || (n =? 133) || (n =? 160).

(** Word characters of [\w] in a [str] pattern: [isalnum] or underscore. *)
Definition isword (c : ascii) : bool :=
  let n := code c in
  ((48 <=? n) && (n <=? 57)) || ((65 <=? n) && (n <=? 90))
  || ((97 <=? n) && (n <=? 122)) || (n =? 95)
  || (n =? 170) || (n =? 178) || (n =? 179) || (n =? 181)
  || (n =? 185) || (n =? 186) || ((188 <=? n) && (n <=? 190))
  || ((192 <=? n) && (n <=? 214)) || ((216 <=? n) && (n <=? 246))
  || (248 <=? n).

(** [c.lower()] for one character. *)
Definition lower (c : ascii) : ascii :=
  let n := code c in
  if ((65 <=? n) && (n <=? 90))
     || ((192 <=? n) && (n <=? 222) && negb (n =? 215))
  then ascii_of_nat (n + 32) else c.

Definition is_empty (s : string) : bool :=
  match s with EmptyString => true | String _ _ => false end.

(** Truthiness of a [str]: the empty string is false. *)
Definition truthy (s : string) : bool := negb (is_empty s).

Fixpoint lstrip (s : string) : string :=
  match s with
  | EmptyString => EmptyString
  | String c s' => if isspace c then lstrip s' else s
  end.

Fixpoint rstrip (s : string) : string :=
  match s with
  | EmptyString => EmptyString
  | String c s' =>
      let r := rstrip s' in
      if is_empty r && isspace c then EmptyString else String c r
  end.

(** [s.strip()] *)
Definition strip (s : string) : string := rstrip (lstrip s).

(** [s.startswith(p)] *)
Definition startswith (p s : string) : bool := String.prefix p s.

(** [s.endswith(p)]: [p] is [s] itself or a suffix of its tail. *)
Fixpoint endswith (p s : string) : bool :=
  String.eqb s p
  || match s with
     | EmptyString => false
     | String _ s' => endswith p s'
     end.

(** [s.split(sep)] for a one-character separator: never empty. *)
Fixpoint split (sep : ascii) (s : string) : list string :=
  match s with
  | EmptyString => [EmptyString]
  | String c s' =>
      if Ascii.eqb c sep then EmptyString :: split sep s'
      else match split sep s' with
           | [] => [String c EmptyString]
           | p :: ps => String c p :: ps
           end
  end.

(** The text before and after the last [sep] of [s], if there is one. *)
Fixpoint cut_last (sep : ascii) (s : string) : option (string * string) :=
  match s with
  | EmptyString => None
  | String c s' =>
      match cut_last sep s' with
      | Some (a, b) => Some (String c a, b)
      | None => if Ascii.eqb c sep then Some (EmptyString, s') else None
      end
  end.

(** [s.rsplit(sep, 1)] for a one-character separator. *)
Definition rsplit1 (sep : ascii) (s : string) : list string :=
  match cut_last sep s with
  | Some (a, b) => [a; b]
  | None => [s]
  end.

Definition tail (s : string) : string :=
  match s with EmptyString => EmptyString | String _ s' => s' end.

Fixpoint init (s : string) : string :=
  match s with
  | EmptyString => EmptyString
  | String c s' => if is_empty s' then EmptyString else String c (init s')
  end.

(** [s[1:-1]] *)
Definition slice_1_m1 (s : string) : string := init (tail s).

Definition newline : string := String "010"%char EmptyString.

(** [sep.join(l)] *)
Definition join (sep : string) (l : list string) : string :=
  String.concat sep l.

(** The lines a text file yields when iterated, line ends kept. *)
Fixpoint readlines (s : string) : list string :=
  match s with
  | EmptyString => []
  | String c s' =>
      if Ascii.eqb c "010"%char then String c EmptyString :: readlines s'
      else match readlines s' with
           | [] => [String c EmptyString]
           | l :: ls => String c l :: ls
           end
  end.

(** The longest prefix of [s] whose characters satisfy [p], and the rest. *)
Fixpoint span (p : ascii -> bool) (s : string) : string * string :=
  match s with
  | EmptyString => (EmptyString, EmptyString)
  | String c s' =>
      if p c then let '(a, b) := span p s' in (String c a, b)
      else (EmptyString, s)
  end.

Fixpoint drop (n : nat) (s : string) : string :=
  match n, s with
  | S k, String _ s' => drop k s'
  | _, _ => s
  end.

(** [s[:n]] *)
Fixpoint slice_to (n : nat) (s : string) : string :=
  match n, s with
  | S k, String c s' => String c (slice_to k s')
  | _, _ => EmptyString
  end.

(** [s * n] *)
Fixpoint times (s : string) (n : nat) : string :=
  match n with
  | O => EmptyString
  | S k => s +:+ times s k
  end.

End PyStr.

(** ** Exceptions and results *)

Inductive exn : Type :=
| KeyError (key : string)
| IndexError
| OSError (path : string)
| JSONDecodeError (path : string)
| SystemExit (status : nat)
| ValueError
| OverflowError.

Inductive result (A : Type) : Type :=
| Ok (a : A)
| Raise (e : exn).
Arguments Ok {A} a.
Arguments Raise {A} e.

(** Sequencing: an exception skips the rest.  With these instances stdpp's
  [x ← m; k] reads as Python's statement order. *)
#[global] Instance result_ret : MRet result := fun A a => Ok a.
#[global] Instance result_bind : MBind result := fun A B k m =>
match m with
| Ok a => k a
| Raise e => Raise e
end.

(** ** The regular expressions of the two resolver scripts *)

Module Regex.
Import PyStr.

Definition rbrace : ascii := "}"%char.
Definition tab : ascii := "009"%char.

(** The tail of [lit{([^}]+)}] once [lit{] is consumed: a non-empty run
    without a closing brace, then the brace.  The greedy run cannot give
    anything back, since every shorter run ends before a character that
    is not a brace. *)
Definition block_body (s : string) : option string :=
  let '(run, rest) := span (fun c => negb (Ascii.eqb c rbrace)) s in
  if truthy run && startswith "}" rest then Some run else None.

(** [re.search(lit + "([^}]+)}", s, re.DOTALL).group(1)], leftmost
    match, for a literal [lit]. *)
Fixpoint search_block (lit s : string) : option string :=
  match (if startswith lit s
         then block_body (drop (String.length lit) s) else None) with
  | Some b => Some b
  | None =>
      match s with
      | EmptyString => None
      | String _ s' => search_block lit s'
      end
  end.

(** [(\w+)\(] anchored at the start of [s]: group 1. *)
Definition word_paren (s : string) : option string :=
  let '(w, rest) := span isword s in
  if truthy w && startswith "(" rest then Some w else None.

(** [re.search(lit + r"(\w+)\(", s).group(1)] for a literal [lit]. *)
Fixpoint search_word_paren (lit s : string) : option string :=
  match (if startswith lit s
         then word_paren (drop (String.length lit) s) else None) with
  | Some w => Some w
  | None =>
      match s with
      | EmptyString => None
      | String _ s' => search_word_paren lit s'
      end
  end.

(** [re.findall(r"\t(\w+)\(", s)].  A match starts at a tab and holds no
    other tab, so resuming one character further (instead of after the
    match) finds the same matches. *)
Fixpoint findall_tab_word_paren (s : string) : list string :=
  match s with
  | EmptyString => []
  | String c s' =>
      match (if Ascii.eqb c tab then word_paren s' else None) with
      | Some w => w :: findall_tab_word_paren s'
      | None => findall_tab_word_paren s'
      end
  end.

(** The pattern both scripts build for an interface name. *)
Definition iface_lit (iface_name : string) : string :=
  "type " +:+ iface_name +:+ " interface {".

(** [rf"func \(r \*{receiver}\) (\w+)\("] up to its group. *)
Definition method_lit (receiver : string) : string :=
  "func (r *" +:+ receiver +:+ ") ".

End Regex.

(** ** gen_stubs.py *)

Module GenStubs.
Import PyStr.

Definition dquote : ascii := "034"%char.

(** The Go literal of the empty string: two double quotes. *)
Definition go_empty_string : string :=
  String dquote (String dquote EmptyString).

(** [fmt.Errorf("not implemented")] *)
Definition go_not_implemented : string :=
  "fmt.Errorf(" +:+ String dquote ("not implemented" +:+ String dquote ")").

Definition extract_method_sig (iface_body method_name : string)
  : option string :=
  let fix go (lines : list string) : option string :=
    match lines with
    | [] => None
    | line :: rest =>
        let line := strip line in
        if startswith (method_name +:+ "(") line then Some line
        else go rest
    end in
  go (split "010"%char iface_body).

Definition parse_return_type (sig : string) : string :=
  match rsplit1 ")"%char sig with
  | [_; after] =>
      let ret := strip after in
      if startswith "(" ret && endswith ")" ret then slice_1_m1 ret
      else ret
  | _ => EmptyString
  end.

(** The branch chain of the loop body of [gen_zero_return], for one
    part [p] of the return list. *)
Definition zero_value (p : string) : string :=
  let p := strip p in
  if String.eqb p "error" then go_not_implemented
  else if startswith "*" p then "nil"
  else if startswith "[]" p then "nil"
  else if startswith "[]*" p then "nil"
  else if startswith "map[" p then "nil"
  else if startswith "<-chan" p then "nil"
  else if String.eqb p "string" then go_empty_string
  else if String.eqb p "bool" then "false"
  else if String.eqb p "int" then "0"
  else if String.eqb p "float64" then "0"
  else "nil".

Definition gen_zero_return (ret_str : string) : string :=
  let parts := map strip (split ","%char ret_str) in
  join ", " (map zero_value parts).

Definition missing_mutations : list string :=
  [ "CreateRoutingChain"; "DeleteInstance"; "InstallService";
    "RemoveRoutingChain"; "ResetTrafficQuota"; "RestartInstance";
    "ReverifyInstance"; "SetTrafficQuota"; "StartInstance";
    "StopInstance"; "UpdateRoutingChain"; "ValidateServiceConfig" ].

Definition missing_queries : list string :=
  [ "GatewayStatus"; "InstanceConfig"; "InstanceHealth";
    "InstanceVerificationStatus"; "RoutingChain"; "RoutingChains";
    "ServiceConfigSchema"; "ServiceDeviceBreakdown"; "ServiceInstance";
    "ServiceInstances"; "ServiceTrafficStats"; "VirtualInterface";
    "VirtualInterfaces" ].

Definition missing_subscriptions : list string :=
  [ "InstanceHealthChanged"; "InstanceStatusChanged";
    "RoutingChainChanged"; "ServiceTrafficUpdated"; "VerificationEvents" ].

Definition iface_names : list string :=
  [ "MutationResolver"; "QueryResolver"; "SubscriptionResolver" ].

(** The [interfaces] dict: interface name to the text of its block. *)
Definition extract_interfaces (content : string) : gmap string string :=
  foldl (fun acc iface_name =>
           match Regex.search_block (Regex.iface_lit iface_name) content with
           | Some body => <[iface_name := body]> acc
           | None => acc
           end) ∅ iface_names.

Definition quoted (s : string) : string :=
  String dquote (s +:+ String dquote EmptyString).

Definition header : list string :=
  [ "package resolver";
    EmptyString;
    "// This file contains stub implementations for GraphQL resolver methods";
    "// that are defined in the schema but not yet fully implemented.";
    "// Generated to satisfy the interface requirements.";
    EmptyString;
    "import (";
    String Regex.tab (quoted "context");
    String Regex.tab (quoted "fmt");
    EmptyString;
    String Regex.tab (quoted "backend/graph/model");
    ")";
    EmptyString ].

(** [d[key]] *)
Definition getitem (d : gmap string string) (key : string) : result string :=
  match d !! key with
  | Some v => Ok v
  | None => Raise (KeyError key)
  end.

(** [method[0].lower() + method[1:]] *)
Definition lower_first (method : string) : result string :=
  match method with
  | EmptyString => Raise IndexError
  | String c rest => Ok (String (lower c) rest)
  end.

(** The body line of a stub. *)
Definition return_line (zero : string) : string :=
  String Regex.tab ("return " +:+ zero).

(** One turn of a generation loop: the lines appended to [stubs]. *)
Definition stub_lines (interfaces : gmap string string)
    (iface_name receiver method : string) : result (list string) :=
  body ← getitem interfaces iface_name;
  match extract_method_sig body method with
  | Some sig =>
      if truthy sig then
        let ret := parse_return_type sig in
        let zero := gen_zero_return ret in
        field ← lower_first method;
        Ok [ "// " +:+ method +:+ " is the resolver for the " +:+ field
               +:+ " field.";
             "func (r *" +:+ receiver +:+ ") " +:+ sig +:+ " {";
             return_line zero;
             "}";
             EmptyString ]
      else Ok []
  | None => Ok []
  end.

Fixpoint gen_group (interfaces : gmap string string)
    (iface_name receiver : string) (missing : list string)
    (stubs : list string) : result (list string) :=
  match missing with
  | [] => Ok stubs
  | method :: rest =>
      ls ← stub_lines interfaces iface_name receiver method;
      gen_group interfaces iface_name receiver rest (stubs ++ ls)
  end.

Record output : Type := {
  stubs_resolvers_go : string;   (* what is written to the output file *)
  stdout : list string;          (* the arguments of the print calls *)
}.

(** The script, given what opening [graph/generated.go] yields. *)
Definition main (generated_go : option string) : result output :=
  content ← match generated_go with
            | Some text => Ok text
            | None => Raise (OSError "graph/generated.go")
            end;
  let interfaces := extract_interfaces content in
  stubs ← gen_group interfaces "MutationResolver" "mutationResolver"
            missing_mutations header;
  stubs ← gen_group interfaces "QueryResolver" "queryResolver"
            missing_queries stubs;
  stubs ← gen_group interfaces "SubscriptionResolver" "subscriptionResolver"
            missing_subscriptions stubs;
  Ok {| stubs_resolvers_go := join newline stubs;
        stdout :=
          [ "Generated "
              +:+ pretty (length missing_mutations + length missing_queries
                          + length missing_subscriptions)
              +:+ " stubs";
            "Written to graph/resolver/stubs.resolvers.go" ] |}.

End GenStubs.

(** ** find_missing.py *)

Module FindMissing.
Import PyStr.

(** What the script reads, once it has changed to the backend directory:
    the text of [graph/generated.go] and, in the order
    [glob.glob("graph/resolver/*.go")] lists them, the paths it returns,
    each with its text.  [None] stands for a file that cannot be opened. *)
Record world : Type := {
  generated_go : option string;
  resolver_go : list (string * option string);
}.

(** Python compares strings by code point, position by position. *)
Definition str_le (a b : string) : Prop := String.leb a b.

(** [sorted(s)] for a set of strings. *)
Definition sorted (s : gset string) : list string :=
  merge_sort str_le (elements s).

Definition iface_names : list string :=
  [ "MutationResolver"; "QueryResolver"; "SubscriptionResolver" ].

(** The [interfaces] dict: interface name to the set of its methods. *)
Definition extract_interfaces (content : string)
  : gmap string (gset string) :=
  foldl (fun acc iface_name =>
           match Regex.search_block (Regex.iface_lit iface_name) content with
           | Some body =>
               <[iface_name := list_to_set (Regex.findall_tab_word_paren body)]> acc
           | None => acc
           end) ∅ iface_names.

Definition resolver_types : list (string * string) :=
  [ ("MutationResolver", "mutationResolver");
    ("QueryResolver", "queryResolver");
    ("SubscriptionResolver", "subscriptionResolver") ].

(** The body of the loop over the lines of one file. *)
Definition scan_line (receiver : string) (implemented : gset string)
    (line : string) : gset string :=
  match Regex.search_word_paren (Regex.method_lit receiver) line with
  | Some m => {[ m ]} ∪ implemented
  | None => implemented
  end.

(** The loop over the globbed files, from the set collected so far. *)
Fixpoint scan_files (receiver : string)
    (files : list (string * option string)) (implemented : gset string)
  : result (gset string) :=
  match files with
  | [] => Ok implemented
  | (gofile, content) :: rest =>
      if endswith "_test.go" gofile then scan_files receiver rest implemented
      else
        match content with
        | None => Raise (OSError gofile)
        | Some text =>
            scan_files receiver rest
              (foldl (scan_line receiver) implemented (readlines text))
        end
  end.

(** [interfaces.get(iface_name, set())] *)
Definition required_of (interfaces : gmap string (gset string))
    (iface_name : string) : gset string :=
  default ∅ (interfaces !! iface_name).

(** [sorted(required - implemented)] *)
Definition missing_of (required implemented : gset string) : list string :=
  sorted (required ∖ implemented).

(** The print calls for one interface. *)
Definition report (iface_name : string) (implemented : gset string)
    (missing : list string) : list string :=
  (newline +:+ "--- " +:+ iface_name +:+ ": "
     +:+ pretty (size implemented) +:+ " implemented, "
     +:+ pretty (length missing) +:+ " missing ---")
  :: match missing with
     | [] => [ "  ALL IMPLEMENTED!" ]
     | _ :: _ => map (fun m => "  " +:+ m) missing
     end.

(** A run: what was printed, and the exception that ended it, if any. *)
Record run : Type := {
  stdout : list string;
  raised : option exn;
}.

Fixpoint report_all (interfaces : gmap string (gset string))
    (files : list (string * option string))
    (types : list (string * string)) (printed : list string) : run :=
  match types with
  | [] => {| stdout := printed; raised := None |}
  | (iface_name, receiver) :: rest =>
      match scan_files receiver files ∅ with
      | Raise e => {| stdout := printed; raised := Some e |}
      | Ok implemented =>
          let required := required_of interfaces iface_name in
          let missing := missing_of required implemented in
          report_all interfaces files rest
            (printed ++ report iface_name implemented missing)
      end
  end.

Definition main (w : world) : run :=
  match generated_go w with
  | None => {| stdout := []; raised := Some (OSError "graph/generated.go") |}
  | Some content =>
      report_all (extract_interfaces content) (resolver_go w)
        resolver_types []
  end.

End FindMissing.

(** ** translate_and_update.py *)

Module Translate.
Import PyStr.

Definition LOCALE_TO_GOOGLE_LANG : list (string * string) :=
  [ ("en", "en"); ("ar", "ar"); ("fa", "fa"); ("fr", "fr"); ("it", "it");
    ("ru", "ru"); ("sk", "sk"); ("sp", "es"); ("tr", "tr");
    ("zh", "zh-cn") ].

Definition ALL_LOCALES : list string :=
  [ "ar"; "fa"; "fr"; "it"; "ru"; "sk"; "sp"; "tr"; "zh" ].

(** A [dict] from [str] to [str], in insertion order.  The keys of a
    Python dict are distinct; the lemmas that need it say so. *)
Definition dict : Type := list (string * string).

(** [d.get(k)] *)
Fixpoint dict_get (k : string) (d : dict) : option string :=
  match d with
  | [] => None
  | (k', v) :: rest => if String.eqb k' k then Some v else dict_get k rest
  end.

(** [d[k] = v]: an existing key keeps its place. *)
Fixpoint dict_set (k v : string) (d : dict) : dict :=
  match d with
  | [] => [(k, v)]
  | (k', v') :: rest =>
      if String.eqb k' k then (k', v) :: rest
      else (k', v') :: dict_set k v rest
  end.

Definition keys (d : dict) : list string := map fst d.

(** [sub in s] *)
Fixpoint contains (sub s : string) : bool :=
  startswith sub s
  || match s with
     | EmptyString => false
     | String _ s' => contains sub s'
     end.

(** [s.replace(old, new)] for a non-empty [old]; [skip] counts the
    characters of an occurrence that is being replaced. *)
Fixpoint replace_from (old new s : string) (skip : nat) : string :=
  match s with
  | EmptyString => EmptyString
  | String c s' =>
      match skip with
      | S k => replace_from old new s' k
      | O =>
          if startswith old s
          then new +:+ replace_from old new s' (String.length old - 1)
          else String c (replace_from old new s' 0)
      end
  end.

Definition replace (old new s : string) : string := replace_from old new s 0.

(** [s.count(sub)] for a non-empty [sub]: the occurrences met from the
    left that do not overlap; [skip] as in [replace_from]. *)
Fixpoint count_from (sub s : string) (skip : nat) : nat :=
  match s with
  | EmptyString => 0
  | String c s' =>
      match skip with
      | S k => count_from sub s' k
      | O =>
          if startswith sub s
          then S (count_from sub s' (String.length sub - 1))
          else count_from sub s' 0
      end
  end.

Definition count (sub s : string) : nat := count_from sub s 0.

(** The object a locale file holds, as [json.load] returns it: the
    [translations] entry if there is one, and the other entries (key and
    JSON text), which the script never touches. *)
Record locale_data : Type := {
  translations : option dict;
  others : list (string * string);
}.

(** [data['translations'] = t] *)
Definition set_translations (data : locale_data) (t : dict) : locale_data :=
  {| translations := Some t; others := others data |}.

(** [data.get('translations', {})] *)
Definition get_translations (data : locale_data) : dict :=
  default [] (translations data).

Inductive file : Type :=
  | Json (data : locale_data)
  | Invalid.                       (* text that [json.load] rejects *)

Inductive event : Type :=
  | Backup (path backup_path : string)        (* [shutil.copy2] *)
  | Save (path : string) (data : locale_data) (* [json.dump] into the file *)
  | Sleep (seconds : nat)                     (* the wait before a retry *)
  | RateLimit                                 (* [time.sleep(delay)] *)
  | Print (line : string).                    (* one call of [print] *)

(** What a call of the translation service gives: the text of the result,
    or the message of the exception it raises. *)
Inductive answer : Type :=
  | Translated (text : string)
  | Failed (message : string).

(** The translation service: the answer to the [n]-th call of the run
    for a text and a target language. *)
Definition service : Type := nat -> string -> string -> answer.

(** The files of the locales directory, what has happened so far, and
    the number of calls made to the service.  The console takes every
    line, and a file can always be written. *)
Record state : Type := {
  fs : gmap string file;
  events : list event;
  calls : nat;
}.

Definition M (A : Type) : Type := state -> result A * state.

#[global] Instance M_ret : MRet M := fun A a st => (Ok a, st).
#[global] Instance M_bind : MBind M := fun A B k m st =>
  match m st with
  | (Ok a, st') => k a st'
  | (Raise e, st') => (Raise e, st')
  end.

Definition raise {A} (e : exn) : M A := fun st => (Raise e, st).

Definition emit (e : event) : M unit := fun st =>
  (Ok tt, {| fs := fs st; events := events st ++ [e]; calls := calls st |}).

(** [print(line)] *)
Definition print (line : string) : M unit := emit (Print line).

(** ["=" * 60] *)
Definition rule : string := times "=" 60.

(** The three [print] calls that open a phase or a summary. *)
Definition banner (title : string) : M unit :=
  print (newline +:+ rule);;
  print title;;
  print rule.

(** The value of [--delay], a float, by what the script does with it: the
    text [str] gives for it, and what [time.sleep] makes of it.
    [time.sleep] first turns the float into a number of nanoseconds: NaN
    raises [ValueError], and a float that does not fit the clock, in
    either direction, the infinities among them, raises [OverflowError];
    then a number below zero raises [ValueError]. *)
Inductive Delay : Type :=
  | Seconds (text : string)    (* zero or more, in range: the sleep returns *)
  | Negative (text : string)   (* below zero, in range *)
  | NotANumber
  | TooLarge (text : string).  (* out of the range of the clock *)

(** [str(delay)] *)
Definition delay_text (d : Delay) : string :=
  match d with
  | Seconds text | Negative text | TooLarge text => text
  | NotANumber => "nan"
  end.

(** The exception [time.sleep(delay)] raises, if it raises one. *)
Definition sleep_error (d : Delay) : option exn :=
  match d with
  | Seconds _ => None
  | Negative _ | NotANumber => Some ValueError
  | TooLarge _ => Some OverflowError
  end.

(** [time.sleep(delay)] *)
Definition time_sleep (d : Delay) : M unit :=
  match sleep_error d with
  | None => emit RateLimit
  | Some e => raise e
  end.

(** [self.locales_dir / f'message.{locale}.json'], with [locales_dir]
    the current directory. *)
Definition locale_file (locale : string) : string :=
  "message." +:+ locale +:+ ".json".

(** [file_path.with_suffix(file_path.suffix + '.bak')] *)
Definition backup_path (file_path : string) : string := file_path +:+ ".bak".

(** [file_path.exists()] *)
Definition exists_ (file_path : string) : M bool := fun st =>
  (Ok (bool_decide (is_Some (fs st !! file_path))), st).

Definition backed_up_line (file_path : string) : string :=
  "✓ Backed up: " +:+ file_path +:+ " → " +:+ backup_path file_path.

Definition backup_file (file_path : string) : M unit := fun st =>
  match fs st !! file_path with
  | Some f =>
      (Ok tt,
       {| fs := <[backup_path file_path := f]> (fs st);
          events := events st
                    ++ [ Backup file_path (backup_path file_path);
                         Print (backed_up_line file_path) ];
          calls := calls st |})
  | None => (Ok tt, st)
  end.

Definition load_json (file_path : string) : M locale_data := fun st =>
  match fs st !! file_path with
  | Some (Json data) => (Ok data, st)
  | Some Invalid => (Raise (JSONDecodeError file_path), st)
  | None => (Raise (OSError file_path), st)
  end.

Definition save_json (file_path : string) (data : locale_data) : M unit :=
  fun st =>
    (Ok tt,
     {| fs := <[file_path := Json data]> (fs st);
        events := events st ++ [Save file_path data];
        calls := calls st |}).

(** The two replacements of phase 1 on one value. *)
Definition update_value (value : string) : string :=
  let value :=
    if contains "Foreign" value then replace "Foreign" "Starlink" value
    else value in
  if contains "Domestic" value then replace "Domestic" "Iran" value
  else value.

(** The local variables of the loop of phase 1. *)
Record counts : Type := {
  updated : dict;
  foreign_count : Z;
  domestic_count : Z;
}.

(** One turn of that loop. *)
Definition update_entry (c : counts) (entry : string * string) : counts :=
  let '(key, value) := entry in
  let original_value := value in
  let foreign := contains "Foreign" value in
  let value := if foreign then replace "Foreign" "Starlink" value else value in
  let foreign_count :=
    if foreign
    then (foreign_count c
          + (Z.of_nat (count "Starlink" value)
             - Z.of_nat (count "Starlink" original_value)))%Z
    else foreign_count c in
  let domestic := contains "Domestic" value in
  let value := if domestic then replace "Domestic" "Iran" value else value in
  let domestic_count :=
    if domestic
    then (domestic_count c
          + (Z.of_nat (count "Iran" value)
             - Z.of_nat (count "Iran" original_value)))%Z
    else domestic_count c in
  {| updated := dict_set key value (updated c);
     foreign_count := foreign_count;
     domestic_count := domestic_count |}.

Definition foreign_line (foreign_count : Z) : string :=
  "  - Replaced 'Foreign' → 'Starlink': " +:+ pretty foreign_count
    +:+ " occurrences".

Definition domestic_line (domestic_count : Z) : string :=
  "  - Replaced 'Domestic' → 'Iran': " +:+ pretty domestic_count
    +:+ " occurrences".

Definition phase1_update_english : M dict :=
  banner "PHASE 1: Updating English Translations";;
  let en_file := locale_file "en" in
  backup_file en_file;;
  data ← load_json en_file;
  let translations := get_translations data in
  let c :=
    foldl update_entry
          {| updated := translations; foreign_count := 0;
             domestic_count := 0 |}
          translations in
  save_json en_file (set_translations data (updated c));;
  print "✓ Updated message.en.json";;
  print (foreign_line (foreign_count c));;
  print (domestic_line (domestic_count c));;
  mret (updated c).

Definition skipping_line (locale : string) : string :=
  "⚠ Skipping " +:+ locale +:+ ": File not found".

Definition copied_line (locale : string) : string :=
  "✓ Updated message." +:+ locale +:+ ".json with English translations".

Definition copy_to_locale (english_translations : dict) (locale : string)
  : M unit :=
  let locale_file := locale_file locale in
  present ← exists_ locale_file;
  if negb present then print (skipping_line locale)
  else
    backup_file locale_file;;
    data ← load_json locale_file;
    save_json locale_file (set_translations data english_translations);;
    print (copied_line locale).

(** [for x in xs: body(x)] *)
Fixpoint for_each {A} (body : A -> M unit) (xs : list A) : M unit :=
  match xs with
  | [] => mret tt
  | x :: rest => body x;; for_each body rest
  end.

Definition phase2_copy_to_locales (english_translations : dict) : M unit :=
  banner "PHASE 2: Copying English to All Locale Files";;
  for_each (copy_to_locale english_translations) ALL_LOCALES.

(** [self.translator.translate(text, dest=target_lang)] *)
Definition call_service (tr : service) (text target_lang : string)
  : M answer := fun st =>
  (Ok (tr (calls st) text target_lang),
   {| fs := fs st; events := events st; calls := S (calls st) |}).

Definition retrying_line (wait_time : nat) (e : string) : string :=
  "  ⚠ Translation failed, retrying in " +:+ pretty wait_time
    +:+ "s... (" +:+ slice_to 50 e +:+ ")".

Definition gave_up_line (max_retries : nat) (e : string) : string :=
  "  ✗ Translation failed after " +:+ pretty max_retries
    +:+ " attempts: " +:+ slice_to 100 e.

(** The retry loop of [translate_text], [remaining] turns before
    [range(max_retries)] is used up; [e] is [str(e)]. *)
Fixpoint translate_attempts (tr : service) (text target_lang : string)
    (max_retries remaining attempt : nat) : M (option string) :=
  match remaining with
  | O => mret None
  | S remaining =>
      result ← call_service tr text target_lang;
      match result with
      | Translated result_text => mret (Some result_text)
      | Failed e =>
          if attempt <? max_retries - 1 then
            let wait_time := (attempt + 1) * 2 in
            print (retrying_line wait_time e);;
            emit (Sleep wait_time);;
            translate_attempts tr text target_lang max_retries remaining
              (S attempt)
          else
            print (gave_up_line max_retries e);;
            mret None
      end
  end.

(** [translator] is [None] when googletrans is not installed. *)
Definition translate_text (translator : option service)
    (text target_lang : string) (max_retries : nat) : M (option string) :=
  match translator with
  | None => mret None
  | Some tr =>
      translate_attempts tr text target_lang max_retries max_retries 0
  end.

(** The local variables of the loop of phase 3. *)
Record progress : Type := {
  current : dict;
  translated : nat;
  failed : nat;
}.

Definition progress_line (processed total : nat) : string :=
  "  Progress: " +:+ pretty processed +:+ "/" +:+ pretty total
    +:+ " entries processed...".

(** One turn of that loop. *)
Definition translate_entry (translator : option service)
    (target_lang : string) (delay : Delay) (total : nat) (p : progress)
    (entry : string * string) : M progress :=
  let '(key, english_text) := entry in
  (if ((translated p + failed p) mod 50 =? 0)
      || (translated p + failed p =? 0)
   then print (progress_line (translated p + failed p) total)
   else mret tt);;
  translated_text ← translate_text translator english_text target_lang 3;
  let p :=
    match translated_text with
    | Some t =>
        if truthy t then
          {| current := dict_set key t (current p);
             translated := S (translated p); failed := failed p |}
        else
          {| current := current p;
             translated := translated p; failed := S (failed p) |}
    | None =>
        {| current := current p;
           translated := translated p; failed := S (failed p) |}
    end in
  time_sleep delay;;
  mret p.

Fixpoint translate_entries (translator : option service)
    (target_lang : string) (delay : Delay) (total : nat) (p : progress)
    (entries : dict) : M progress :=
  match entries with
  | [] => mret p
  | entry :: rest =>
      p ← translate_entry translator target_lang delay total p entry;
      translate_entries translator target_lang delay total p rest
  end.

(** ['─' * 60] *)
Definition thin_rule : string := times "─" 60.

Definition translated_line (translated total : nat) : string :=
  "  - Successfully translated: " +:+ pretty translated +:+ "/"
    +:+ pretty total.

Definition failed_line (failed total : nat) : string :=
  "  - Failed (kept English): " +:+ pretty failed +:+ "/" +:+ pretty total.

Definition not_installed_line (locale : string) : string :=
  "✗ Cannot translate " +:+ locale +:+ ": googletrans not installed".

Definition not_found_line (locale_file : string) : string :=
  "✗ File not found: " +:+ locale_file.

Definition unknown_locale_line (locale : string) : string :=
  "✗ Unknown locale: " +:+ locale.

Definition translating_line (locale target_lang : string) : string :=
  "Translating: " +:+ locale +:+ " (" +:+ target_lang +:+ ")".

Definition completed_line (locale : string) : string :=
  newline +:+ "✓ Completed: " +:+ locale.

Definition phase3_translate_locale (translator : option service)
    (locale : string) (delay : Delay) : M bool :=
  if bool_decide (translator = None) then
    print (not_installed_line locale);;
    mret false
  else
    let locale_file := locale_file locale in
    present ← exists_ locale_file;
    if negb present then
      print (not_found_line locale_file);;
      mret false
    else
      match dict_get locale LOCALE_TO_GOOGLE_LANG with
      | None =>
          print (unknown_locale_line locale);;
          mret false
      | Some target_lang =>
          if negb (truthy target_lang) then
            print (unknown_locale_line locale);;
            mret false
          else
            print (newline +:+ thin_rule);;
            print (translating_line locale target_lang);;
            print thin_rule;;
            data ← load_json locale_file;
            let translations := get_translations data in
            let total := length translations in
            p ← translate_entries translator target_lang delay total
                  {| current := translations; translated := 0; failed := 0 |}
                  translations;
            save_json locale_file (set_translations data (current p));;
            print (completed_line locale);;
            print (translated_line (translated p) total);;
            (if 0 <? failed p
             then print (failed_line (failed p) total)
             else mret tt);;
            mret true
      end.

(** The parsed command line; [locales] is [None] without [--locales]. *)
Record args : Type := {
  locales : option (list string);
  all : bool;
  delay : Delay;
  skip_phase1 : bool;
  skip_phase2 : bool;
}.

(** The loop of [main] over the locales to translate. *)
Fixpoint translate_locales (translator : option service) (delay : Delay)
    (locales_to_translate : list string) (success_count : nat) : M nat :=
  match locales_to_translate with
  | [] => mret success_count
  | locale :: rest =>
      ok ← phase3_translate_locale translator locale delay;
      translate_locales translator delay rest
        (if ok : bool then S success_count else success_count)
  end.

Definition main (translator : option service) (a : args) : M unit :=
  english_translations ←
    (if negb (skip_phase1 a) then phase1_update_english
     else
       print (newline +:+ "Skipping Phase 1 (English replacement)");;
       data ← load_json (locale_file "en");
       mret (get_translations data));
  (if negb (skip_phase2 a) then phase2_copy_to_locales english_translations
   else print (newline +:+ "Skipping Phase 2 (copying to locales)"));;
  (if all a || match locales a with Some (_ :: _) => true | _ => false end
   then
     if bool_decide (translator = None) then
       banner "ERROR: Cannot proceed with translation";;
       print "Please install googletrans:";;
       print "  pip install googletrans==4.0.0-rc1";;
       raise (SystemExit 1)
     else
       let locales_to_translate :=
         if all a then ALL_LOCALES else default [] (locales a) in
       banner "PHASE 3: Translating Locale Files";;
       print ("Target locales: " +:+ join ", " locales_to_translate);;
       print ("Delay between calls: " +:+ delay_text (delay a) +:+ "s");;
       success_count ←
         translate_locales translator (delay a) locales_to_translate 0;
       banner "TRANSLATION SUMMARY";;
       print ("Successfully translated: " +:+ pretty success_count +:+ "/"
                +:+ pretty (length locales_to_translate) +:+ " locales")
   else
     banner "PHASE 3: Skipped (no locales specified)";;
     print "To translate locales, use:";;
     print "  --locales fa ar  (specific locales)";;
     print "  --all            (all locales)");;
  print (newline +:+ "✓ All operations completed!").

(** What the script prints when it is loaded and [googletrans] cannot be
    imported. *)
Definition import_googletrans (translator : option service) : M unit :=
  if bool_decide (translator = None) then
    print "Warning: googletrans not installed. Translation phase will be skipped.";;
    print "Install with: pip install googletrans==4.0.0-rc1"
  else mret tt.

(** A run from the files [files]. *)
Definition run (translator : option service) (a : args)
    (files : gmap string file) : result unit * state :=
  (import_googletrans translator;; main translator a)
    {| fs := files; events := []; calls := 0 |}.

End Translate.

(** ** Vocabulary of the statements *)

Module Props.
Import PyStr.

(** A globbed path that the scan skips. *)
Definition is_test (f : string * option string) : bool :=
  endswith "_test.go" f.1.

(** The first path, in glob order, that the scan opens and cannot read. *)
Fixpoint first_unreadable (files : list (string * option string))
  : option string :=
  match files with
  | [] => None
  | f :: rest =>
      if negb (is_test f) && bool_decide (f.2 = None) then Some f.1
      else first_unreadable rest
  end.

(** The texts of the files that are neither tests nor unreadable. *)
Fixpoint scanned_texts (files : list (string * option string))
  : list string :=
  match files with
  | [] => []
  | f :: rest =>
      match f.2 with
      | Some text =>
          if is_test f then scanned_texts rest
          else text :: scanned_texts rest
      | None => scanned_texts rest
      end
  end.

(** The methods of [receiver] defined in the given texts, added to [acc]. *)
Definition scan_texts (receiver : string) (texts : list string)
    (acc : gset string) : gset string :=
  foldl (fun acc text =>
           foldl (FindMissing.scan_line receiver) acc (readlines text))
        acc texts.

(** The methods the contract text declares for an interface: the names
    that the pattern of a method line finds in the block of the
    interface, and none when the text has no such block. *)
Definition contract (content iface_name : string) : gset string :=
  match Regex.search_block (Regex.iface_lit iface_name) content with
  | Some body => list_to_set (Regex.findall_tab_word_paren body)
  | None => ∅
  end.

(** The method [m] of [receiver] is implemented in the globbed files: a
    line of a file that is not a test file defines it. *)
Definition implements (files : list (string * option string))
    (receiver m : string) : Prop :=
  exists path text line,
    (path, Some text) ∈ files
    /\ endswith "_test.go" path = false
    /\ line ∈ readlines text
    /\ Regex.search_word_paren (Regex.method_lit receiver) line = Some m.

(** The heading of an interface in the report. *)
Definition heading (iface_name : string) (implemented missing : nat)
  : string :=
  newline +:+ "--- " +:+ iface_name +:+ ": " +:+ pretty implemented
    +:+ " implemented, " +:+ pretty missing +:+ " missing ---".

(** A resolver directory with one readable and one unreadable file. *)
Definition locked_files : list (string * option string) :=
  [ ("graph/resolver/a.resolvers.go",
     Some "func (r *queryResolver) Foo(ctx context.Context) (bool, error) {");
    ("graph/resolver/locked.go", None) ].

(** Every write of a trace comes after a backup of the same file. *)
Definition backed_up (trace : list Translate.event) : Prop :=
  forall i path data,
    trace !! i = Some (Translate.Save path data) ->
    exists j, j < i /\
      trace !! j = Some (Translate.Backup path (Translate.backup_path path)).

(** The files a trace has copied to their backup path. *)
Fixpoint backups (trace : list Translate.event) : gset string :=
  match trace with
  | [] => ∅
  | Translate.Backup path b :: rest =>
      (if decide (b = Translate.backup_path path) then {[ path ]} else ∅)
      ∪ backups rest
  | _ :: rest => backups rest
  end.

(** Reading a trace from the left with the set of files backed up so
    far: every write is of a file in that set. *)
Fixpoint safe (seen : gset string) (trace : list Translate.event) : Prop :=
  match trace with
  | [] => True
  | Translate.Backup path b :: rest =>
      safe ((if decide (b = Translate.backup_path path)
             then {[ path ]} else ∅) ∪ seen) rest
  | Translate.Save path _ :: rest => path ∈ seen /\ safe seen rest
  | _ :: rest => safe seen rest
  end.

(** Events that touch no file. *)
Definition quiet (e : Translate.event) : Prop :=
  match e with
  | Translate.Sleep _ | Translate.RateLimit | Translate.Print _ => True
  | _ => False
  end.

(** An entry after phase 3, against the entry it was: the same key, and
    the same value or an answer of the service for that value. *)
Definition kept_or_translated (tr : Translate.service) (lang : string)
    (old new : string * string) : Prop :=
  new.1 = old.1
  /\ (new.2 = old.2
      \/ exists n, tr n old.2 lang = Translate.Translated new.2).

(** The state a run starts from. *)
Definition start (files : gmap string Translate.file) : Translate.state :=
  {| Translate.fs := files; Translate.events := []; Translate.calls := 0 |}.

(** The state [st] after the events [evs] and [n] more calls to the
    service, the files being as they were. *)
Definition advanced (st : Translate.state) (evs : list Translate.event)
    (n : nat) : Translate.state :=
  {| Translate.fs := Translate.fs st;
     Translate.events := Translate.events st ++ evs;
     Translate.calls := n + Translate.calls st |}.

(** The state [st] after the events [evs]. *)
Definition logged (st : Translate.state) (evs : list Translate.event)
  : Translate.state := advanced st evs 0.

(** The lines that announce a locale in phase 3, and the state in which
    the loop over its entries starts. *)
Definition announcement (locale lang : string) : list Translate.event :=
  [ Translate.Print (newline +:+ Translate.thin_rule);
    Translate.Print (Translate.translating_line locale lang);
    Translate.Print Translate.thin_rule ].

Definition announced (locale lang : string) (st : Translate.state)
  : Translate.state := logged st (announcement locale lang).

(** What a turn of the loop of phase 3 prints before it calls the
    service: the progress line, every fifty entries. *)
Definition progress_report (p : Translate.progress) (total : nat)
  : list Translate.event :=
  if ((Translate.translated p + Translate.failed p) mod 50 =? 0)
     || (Translate.translated p + Translate.failed p =? 0)
  then [ Translate.Print
           (Translate.progress_line
              (Translate.translated p + Translate.failed p) total) ]
  else [].

(** The lines of a banner. *)
Definition banner_lines (title : string) : list Translate.event :=
  [ Translate.Print (newline +:+ Translate.rule);
    Translate.Print title;
    Translate.Print Translate.rule ].

(** Every write so far came after a backup of the same file. *)
Definition sound (st : Translate.state) : Prop :=
  safe ∅ (Translate.events st).

(** Each locale file of [ls] that exists has been copied to its backup
    path. *)
Definition covered (ls : list string) (st : Translate.state) : Prop :=
  forall l, l ∈ ls ->
    is_Some (Translate.fs st !! Translate.locale_file l) ->
    Translate.locale_file l ∈ backups (Translate.events st).

(** Both: the invariant of a run, for the locales [ls]. *)
Definition guarded (ls : list string) (st : Translate.state) : Prop :=
  sound st /\ covered ls st.

(** From a state where [P] holds, [m] returns in a state where [Q]
    holds, or raises in a state that is sound. *)
Definition hoare {A} (P : Translate.state -> Prop) (m : Translate.M A)
    (Q : A -> Translate.state -> Prop) : Prop :=
  forall st, P st ->
    match m st with
    | (Ok a, st') => Q a st'
    | (Raise _, st') => sound st'
    end.

(** The local variables of the loop of phase 3 when it starts. *)
Definition fresh (d : Translate.dict) : Translate.progress :=
  {| Translate.current := d; Translate.translated := 0;
     Translate.failed := 0 |}.


(** A locale file with two entries, and a directory with the English
    file and the Persian one. *)
Definition demo_data : Translate.locale_data :=
  {| Translate.translations := Some [ ("hello", "Hello"); ("bye", "Goodbye") ];
     Translate.others := [ ("locale", "fa") ] |}.

Definition demo_files : gmap string Translate.file :=
  {[ "message.en.json" := Translate.Json demo_data;
     "message.fa.json" := Translate.Json demo_data ]}.

(** A service whose first three calls fail. *)
Definition flaky : Translate.service := fun n text lang =>
  if n <? 3 then Translate.Failed "timed out"
  else Translate.Translated (text +:+ " (" +:+ lang +:+ ")").

(** The default of [--delay]. *)
Definition default_delay : Translate.Delay := Translate.Seconds "0.2".

(** [--skip-phase1 --skip-phase2 --locales fa] *)
Definition only_translate_fa : Translate.args :=
  {| Translate.locales := Some [ "fa" ]; Translate.all := false;
     Translate.delay := default_delay;
     Translate.skip_phase1 := true; Translate.skip_phase2 := true |}.

(** The last character of a string. *)
Fixpoint last_char (s : string) : option ascii :=
  match s with
  | EmptyString => None
  | String c s' =>
      match last_char s' with
      | None => Some c
      | Some c' => Some c'
      end
  end.

(** [locales_to_translate] in [main]. *)
Definition chosen (a : Translate.args) : list string :=
  if Translate.all a then Translate.ALL_LOCALES
  else default [] (Translate.locales a).

(** [--locales fa]: the three phases, the last one for Persian. *)
Definition translate_fa : Translate.args :=
  {| Translate.locales := Some [ "fa" ]; Translate.all := false;
     Translate.delay := default_delay;
     Translate.skip_phase1 := false; Translate.skip_phase2 := false |}.

(** Whether the command line asks for phase 3. *)
Definition wants_phase3 (a : Translate.args) : bool :=
  Translate.all a
  || match Translate.locales a with Some (_ :: _) => true | _ => false end.

(** A contract text with a block for each resolver interface. *)
Definition contract_with_three_blocks : string :=
  "type MutationResolver interface { StartInstance(ctx context.Context) bool }"
  +:+ " type QueryResolver interface { Other(ctx context.Context) error }"
  +:+ " type SubscriptionResolver interface { Tick(ctx context.Context) int }".

(** The resolver directory of [locked_files], all readable, with a test
    file. *)
Definition locked_files_readable : list (string * option string) :=
  [ ("graph/resolver/a.resolvers.go",
     Some "func (r *queryResolver) Foo(ctx context.Context) (bool, error) {");
    ("graph/resolver/a_test.go",
     Some "func (r *queryResolver) Bar(ctx context.Context) error {");
    ("graph/resolver/b.resolvers.go", Some "package resolver") ].

(** An English file with the two words phase 1 replaces. *)
Definition demo_data_foreign : Translate.locale_data :=
  {| Translate.translations :=
       Some [ ("uplink", "Foreign Link"); ("local", "Domestic Link") ];
     Translate.others := [ ("locale", "en") ] |}.

Definition demo_files_foreign : gmap string Translate.file :=
  {[ "message.en.json" := Translate.Json demo_data_foreign ]}.

(** The message of a failed call. *)
Definition message_of (a : Translate.answer) : string :=
  match a with
  | Translate.Failed message => message
  | Translate.Translated _ => EmptyString
  end.

(** The call raised. *)
Definition has_failed (a : Translate.answer) : Prop :=
  a = Translate.Failed (message_of a).

(** The warnings and the waits before the retries that follow [k] failed
    calls for [text], the first of them being call number [first] of the
    run and call number [attempt] of the text. *)
Definition waits (tr : Translate.service) (text lang : string)
    (first attempt k : nat) : list Translate.event :=
  flat_map
    (fun i =>
       [ Translate.Print
           (Translate.retrying_line ((attempt + i + 1) * 2)
              (message_of (tr (first + i) text lang)));
         Translate.Sleep ((attempt + i + 1) * 2) ])
    (seq 0 k).

(** What the loop of phase 1 adds to its two counters for one value. *)
Definition foreign_gain (value : string) : Z :=
  if Translate.contains "Foreign" value
  then (Z.of_nat (Translate.count "Starlink"
                    (Translate.replace "Foreign" "Starlink" value))
        - Z.of_nat (Translate.count "Starlink" value))%Z
  else 0%Z.

Definition domestic_gain (value : string) : Z :=
  if Translate.contains "Domestic"
       (if Translate.contains "Foreign" value
        then Translate.replace "Foreign" "Starlink" value else value)
  then (Z.of_nat (Translate.count "Iran" (Translate.update_value value))
        - Z.of_nat (Translate.count "Iran" value))%Z
  else 0%Z.

(** The sum of [gain] over the values of a dict. *)
Definition total_gain (gain : string -> Z) (d : Translate.dict) : Z :=
  foldr (fun entry n => (gain entry.2 + n)%Z) 0%Z d.

(** The lines [main] prints before it exits for want of a translator, and
    those with which it ends when phase 3 is not asked for. *)
Definition missing_translator_lines : list Translate.event :=
  banner_lines "ERROR: Cannot proceed with translation"
  ++ [ Translate.Print "Please install googletrans:";
       Translate.Print "  pip install googletrans==4.0.0-rc1" ].

Definition phase3_skipped_lines : list Translate.event :=
  banner_lines "PHASE 3: Skipped (no locales specified)"
  ++ [ Translate.Print "To translate locales, use:";
       Translate.Print "  --locales fa ar  (specific locales)";
       Translate.Print "  --all            (all locales)";
       Translate.Print (newline +:+ "✓ All operations completed!") ].

(** The number of rate-limiting pauses in a trace. *)
Fixpoint rate_limits (trace : list Translate.event) : nat :=
  match trace with
  | [] => 0
  | Translate.RateLimit :: rest => S (rate_limits rest)
  | _ :: rest => rate_limits rest
  end.

(** The command line [a] without the request for phase 3. *)
Definition without_phase3 (a : Translate.args) : Translate.args :=
  {| Translate.locales := None; Translate.all := false;
     Translate.delay := Translate.delay a;
     Translate.skip_phase1 := Translate.skip_phase1 a;
     Translate.skip_phase2 := Translate.skip_phase2 a |}.

(** Whether every character of [s] satisfies [p]. *)
Fixpoint all_chars (p : ascii -> bool) (s : string) : bool :=
  match s with
  | EmptyString => true
  | String x s' => p x && all_chars p s'
  end.

(** A non-empty run of word characters. *)
Definition is_name (m : string) : Prop :=
  PyStr.truthy m = true /\ all_chars PyStr.isword m = true.

(** The methods of [receiver] defined in one text. *)
Definition methods_of (receiver text : string) : gset string :=
  foldl (FindMissing.scan_line receiver) ∅ (PyStr.readlines text).

(** Whether the character [c] occurs in [s]. *)
Fixpoint has_char (c : ascii) (s : string) : bool :=
  match s with
  | EmptyString => false
  | String x s' => Ascii.eqb x c || has_char c s'
  end.

(** The five lines of the stub of [method] with signature [sig]. *)
Definition stub_block (receiver method sig : string) : list string :=
  [ "// " +:+ method +:+ " is the resolver for the "
      +:+ match method with
          | EmptyString => EmptyString
          | String c rest => String (PyStr.lower c) rest
          end
      +:+ " field.";
    "func (r *" +:+ receiver +:+ ") " +:+ sig +:+ " {";
    GenStubs.return_line
      (GenStubs.gen_zero_return (GenStubs.parse_return_type sig));
    "}";
    EmptyString ].

End Props.

(** * The stub generator *)

Section gen_stubs.
Import PyStr GenStubs.

Lemma cut_last_closing (sep : ascii) (s : string) :
  endswith (String sep EmptyString) s = true ->
  exists a, cut_last sep s = Some (a, EmptyString).
Proof.
  induction s as [|c s IH]; simpl; [discriminate|].
  destruct s as [|c' s'].
  - simpl. destruct (Ascii.eqb_spec c sep) as [->|Hne]; [eauto|].
    intros H. exfalso. apply Hne.
    destruct (Ascii.eqb_spec c sep); [done|discriminate].
  - intros H.
    assert (Hs : endswith (String sep EmptyString) (String c' s') = true).
    { simpl in H. destruct (Ascii.eqb c sep); simpl in H; exact H. }
    destruct (IH Hs) as [a Ha]. rewrite Ha. eauto.
Qed.

(** A signature that ends with a closing parenthesis has nothing after
    its last parenthesis: the return list is taken to be empty. *)
Lemma parse_return_type_closing (sig : string) :
  endswith ")" sig = true -> parse_return_type sig = EmptyString.
Proof.
  intros H. unfold parse_return_type, rsplit1.
  destruct (cut_last_closing ")"%char sig H) as [a ->]. reflexivity.
Qed.

(** C1 (the code departs from the claim): for the signature of Foo
    that takes a context and returns a Widget pointer and an error, the
    last closing parenthesis is the one that ends the return list, so
    the parsed return list is empty and the body line is a bare return
    of nil.  The return list itself (Widget pointer, error), once given
    to gen_zero_return, yields nil and the not-implemented error. *)
Theorem C1_foo_stub_returns_only_nil :
  parse_return_type "Foo(ctx context.Context) (*Widget, error)" = EmptyString
  /\ stub_lines
       {[ "QueryResolver" :=
            "Foo(ctx context.Context) (*Widget, error)" ]}
       "QueryResolver" "queryResolver" "Foo"
     = Ok [ "// Foo is the resolver for the foo field.";
            "func (r *queryResolver) Foo(ctx context.Context) (*Widget, error) {";
            String Regex.tab "return nil";
            "}";
            EmptyString ]
  /\ gen_zero_return "*Widget, error" = "nil, " +:+ go_not_implemented.
Proof. repeat split; vm_compute; reflexivity. Qed.

(** C3, as stated, fails: neither token yields 0.0. *)
Lemma C3_float_tokens_do_not_yield_0_0 :
  ~ (forall p : string,
       p = "float64" \/ p = "float" -> gen_zero_return p = "0.0").
Proof.
  intros H. specialize (H "float64" (or_introl eq_refl)).
  vm_compute in H. discriminate.
Qed.

(** C3 (amended): the token float64 yields 0, and the token float is
    not recognised and yields nil like any unknown type; spaces around
    the token do not matter. *)
Theorem C3_float64_is_0_and_float_is_nil :
  gen_zero_return "float64" = "0"
  /\ gen_zero_return "float" = "nil"
  /\ (forall p, strip p = "float64" -> zero_value p = "0")
  /\ (forall p, strip p = "float" -> zero_value p = "nil").
Proof.
  repeat split; try (vm_compute; reflexivity);
    intros p Hp; unfold zero_value; rewrite Hp; reflexivity.
Qed.

Lemma C3_witness :
  zero_value " float64 " = "0" /\ zero_value "float" = "nil".
Proof.
  split.
  - apply (proj1 (proj2 (proj2 C3_float64_is_0_and_float_is_nil))).
    reflexivity.
  - apply (proj2 (proj2 (proj2 C3_float64_is_0_and_float_is_nil))).
    reflexivity.
Defined.

(** C8: bool yields false, string yields the empty Go string literal,
    int yields 0 and []string yields nil. *)
Theorem C8_zero_values_of_basic_types :
  gen_zero_return "bool" = "false"
  /\ gen_zero_return "string" = go_empty_string
  /\ gen_zero_return "int" = "0"
  /\ gen_zero_return "[]string" = "nil"
  /\ String.length go_empty_string = 2
  /\ String.get 0 go_empty_string = Some dquote
  /\ String.get 1 go_empty_string = Some dquote.
Proof. repeat split; vm_compute; reflexivity. Qed.

End gen_stubs.

(** * The report of missing methods *)

Section find_missing.
Import PyStr FindMissing Props.

#[local] Instance str_le_total : Total str_le.
Proof.
  intros a b. unfold str_le.
  destruct (String.leb_total a b) as [H|H]; rewrite H; [left|right]; exact I.
Qed.

Lemma elem_of_sorted (s : gset string) (m : string) : m ∈ sorted s <-> m ∈ s.
Proof.
  unfold sorted. rewrite merge_sort_Permutation. apply elem_of_elements.
Qed.

Lemma sorted_nil (s : gset string) : sorted s = [] <-> s = ∅.
Proof.
  unfold sorted. split.
  - intros H. apply leibniz_equiv, elements_empty_inv, Permutation_nil_r.
    rewrite <- H. symmetry. apply merge_sort_Permutation.
  - intros ->. rewrite elements_empty. reflexivity.
Qed.

(** The names listed for an interface are exactly the required methods
    that are not implemented, each once and in order; when there is none,
    the only line after the heading is the ALL IMPLEMENTED! line,
    otherwise each missing name has its line. *)
Lemma missing_of_spec
    (interfaces : gmap string (gset string)) (iface_name : string)
    (implemented : gset string) :
  let required := required_of interfaces iface_name in
  let missing := missing_of required implemented in
  (forall m, m ∈ missing <-> m ∈ required /\ m ∉ implemented)
  /\ NoDup missing
  /\ Sorted str_le missing
  /\ List.tl (report iface_name implemented missing)
     = if decide (required ∖ implemented = ∅)
       then [ "  ALL IMPLEMENTED!" ]
       else map (fun m => "  " +:+ m) missing.
Proof.
  intros required missing. subst missing. unfold missing_of.
  split; [|split; [|split]].
  - intros m. rewrite elem_of_sorted. apply elem_of_difference.
  - unfold sorted. rewrite merge_sort_Permutation. apply NoDup_elements.
  - apply Sorted_merge_sort, _.
  - unfold report. simpl.
    destruct (decide (required ∖ implemented = ∅)) as [He|Hne].
    + apply sorted_nil in He. rewrite He. reflexivity.
    + destruct (sorted (required ∖ implemented)) eqn:E; [|reflexivity].
      apply sorted_nil in E. contradiction.
Qed.

Lemma scan_files_skips_tests (receiver : string)
    (files : list (string * option string)) (acc : gset string) :
  scan_files receiver files acc
  = scan_files receiver (filter (fun f => is_test f = false) files) acc.
Proof.
  revert acc. induction files as [|[gofile content] files IH]; intros acc.
  - reflexivity.
  - cbn [scan_files]. destruct (endswith "_test.go" gofile) eqn:E.
    + rewrite filter_cons_False; [apply IH|].
      unfold is_test; cbn [fst]. rewrite E. discriminate.
    + rewrite filter_cons_True by exact E.
      cbn [scan_files]. rewrite E.
      destruct content; [apply IH|reflexivity].
Qed.

Lemma scan_files_only_tests (receiver : string)
    (files : list (string * option string)) (acc : gset string) :
  Forall (fun f => is_test f = true) files ->
  scan_files receiver files acc = Ok acc.
Proof.
  induction 1 as [|[gofile content] files Hf _ IH]; [reflexivity|].
  unfold is_test in Hf. simpl in *. rewrite Hf. exact IH.
Qed.

(** C9: the scan gives the same result as on the globbed files without
    those whose path ends in _test.go, whatever these hold; and when all
    globbed files are test files, nothing is implemented, so the report
    of an interface lists every required method as missing. *)
Theorem C9_test_files_never_count (receiver : string)
    (files : list (string * option string)) :
  (forall acc,
     scan_files receiver files acc
     = scan_files receiver (filter (fun f => is_test f = false) files) acc)
  /\ (Forall (fun f => is_test f = true) files ->
      scan_files receiver files ∅ = Ok ∅
      /\ forall interfaces iface_name rest printed,
           report_all interfaces files ((iface_name, receiver) :: rest)
             printed
           = report_all interfaces files rest
               (printed ++ report iface_name ∅
                  (sorted (required_of interfaces iface_name)))).
Proof.
  split; [intros acc; apply scan_files_skips_tests|].
  intros Hall. split; [by apply scan_files_only_tests|].
  intros interfaces iface_name rest printed. simpl.
  rewrite scan_files_only_tests by done.
  unfold missing_of. by rewrite difference_empty_L.
Qed.

Lemma C9_witness :
  scan_files "queryResolver"
    [ ("graph/resolver/q_test.go",
       Some "func (r *queryResolver) Foo(ctx context.Context) bool {") ] ∅
  = Ok ∅.
Proof.
  apply (proj2 (C9_test_files_never_count "queryResolver" _)).
  repeat constructor.
Defined.

Lemma scan_files_first_unreadable (receiver : string)
    (files : list (string * option string)) (acc : gset string) :
  scan_files receiver files acc
  = match first_unreadable files with
    | Some path => Raise (OSError path)
    | None => Ok (scan_texts receiver (scanned_texts files) acc)
    end.
Proof.
  revert acc. induction files as [|[gofile content] files IH]; intros acc.
  - reflexivity.
  - simpl. unfold is_test. simpl.
    destruct (endswith "_test.go" gofile); simpl.
    + rewrite IH. by destruct content.
    + destruct content as [text|]; simpl; [|reflexivity].
      rewrite IH. reflexivity.
Qed.

(** C5, as stated, fails: a globbed file that cannot be opened is not
    skipped.  The scan of a directory with one readable and one
    unreadable file raises the error of the open call instead of giving
    the methods of the readable file, and the run ends there with
    nothing printed. *)
Lemma C5_unreadable_file_is_not_skipped :
  ~ (forall receiver files acc,
       scan_files receiver files acc
       = Ok (scan_texts receiver (scanned_texts files) acc))
  /\ scan_files "queryResolver" locked_files ∅
     = Raise (OSError "graph/resolver/locked.go")
  /\ scan_texts "queryResolver" (scanned_texts locked_files) ∅
     = {[ "Foo" ]}
  /\ main {| generated_go := Some EmptyString; resolver_go := locked_files |}
     = {| stdout := []; raised := Some (OSError "graph/resolver/locked.go") |}.
Proof.
  split; [|repeat split; vm_compute; reflexivity].
  intros H. specialize (H "queryResolver" locked_files ∅).
  vm_compute in H. discriminate.
Qed.

(** C5 (amended): the scan opens the globbed files in order, test files
    apart.  The first of them that cannot be opened raises the error of
    the open call: the scan returns no set and the run ends with nothing
    printed.  When every such file can be opened, the scan returns the
    methods found in their texts and the run ends without an error. *)
Theorem C5_first_unreadable_file_ends_the_run (receiver content : string)
    (files : list (string * option string)) :
  (forall acc,
     scan_files receiver files acc
     = match first_unreadable files with
       | Some path => Raise (OSError path)
       | None => Ok (scan_texts receiver (scanned_texts files) acc)
       end)
  /\ match first_unreadable files with
     | Some path =>
         main {| generated_go := Some content; resolver_go := files |}
         = {| stdout := []; raised := Some (OSError path) |}
     | None =>
         raised (main {| generated_go := Some content;
                         resolver_go := files |}) = None
     end.
Proof.
  split; [intros acc; apply scan_files_first_unreadable|].
  unfold main, resolver_types. cbn [generated_go resolver_go report_all].
  rewrite !scan_files_first_unreadable.
  destruct (first_unreadable files); reflexivity.
Qed.

(** When every scanned file can be opened, the run prints the report of
    each interface, in the order of [resolver_types]. *)
Lemma main_prints_the_reports (content : string)
    (files : list (string * option string)) :
  first_unreadable files = None ->
  main {| generated_go := Some content; resolver_go := files |}
  = {| stdout :=
         flat_map
           (fun '(iface_name, receiver) =>
              let implemented :=
                scan_texts receiver (scanned_texts files) ∅ in
              report iface_name implemented
                (missing_of (required_of (extract_interfaces content)
                               iface_name) implemented))
           resolver_types;
       raised := None |}.
Proof.
  intros H. unfold main, resolver_types.
  cbn [generated_go resolver_go report_all flat_map].
  rewrite !scan_files_first_unreadable, H.
  by rewrite app_nil_r, <- !app_assoc.
Qed.

(** An interface that the contract text does not declare is reported
    with no missing method. *)
Lemma report_of_absent_interface (interfaces : gmap string (gset string))
    (iface_name : string) (implemented : gset string) :
  interfaces !! iface_name = None ->
  missing_of (required_of interfaces iface_name) implemented = []
  /\ List.tl (report iface_name implemented
                (missing_of (required_of interfaces iface_name) implemented))
     = [ "  ALL IMPLEMENTED!" ].
Proof.
  intros H. unfold required_of, missing_of. rewrite H. cbn [default].
  assert (E : sorted (∅ ∖ implemented) = []).
  { apply sorted_nil, empty_difference_L. }
  rewrite E. split; reflexivity.
Qed.

End find_missing.

Section gen_stubs_script.
Import PyStr GenStubs.

Lemma gen_group_absent (interfaces : gmap string string)
    (iface_name receiver : string) (missing stubs : list string) :
  interfaces !! iface_name = None ->
  missing <> [] ->
  gen_group interfaces iface_name receiver missing stubs
  = Raise (KeyError iface_name).
Proof.
  intros H Hne. destruct missing as [|method rest]; [done|].
  cbn [gen_group]. unfold stub_lines, getitem. rewrite H. reflexivity.
Qed.

Lemma gen_group_present (interfaces : gmap string string)
    (iface_name receiver body : string) (missing stubs : list string) :
  interfaces !! iface_name = Some body ->
  Forall (fun m => m <> EmptyString) missing ->
  exists out, gen_group interfaces iface_name receiver missing stubs = Ok out.
Proof.
  intros Hb Hm. revert stubs.
  induction Hm as [|m missing Hne _ IH]; intros stubs; [by eexists|].
  cbn [gen_group]. unfold stub_lines, getitem. rewrite Hb.
  cbn [mbind result_bind].
  destruct (extract_method_sig body m) as [sig|]; [|apply IH].
  destruct (truthy sig); [|apply IH].
  destruct m as [|c m]; [done|]. cbn [lower_first]. apply IH.
Qed.

Lemma extract_interfaces_lookup (content iface_name : string) :
  iface_name ∈ iface_names ->
  extract_interfaces content !! iface_name
  = Regex.search_block (Regex.iface_lit iface_name) content.
Proof.
  unfold extract_interfaces, iface_names. cbn [foldl].
  rewrite !elem_of_cons, elem_of_nil.
  destruct (Regex.search_block (Regex.iface_lit "MutationResolver") content)
    eqn:E1;
  destruct (Regex.search_block (Regex.iface_lit "QueryResolver") content)
    eqn:E2;
  destruct (Regex.search_block (Regex.iface_lit "SubscriptionResolver")
              content) eqn:E3;
  intros [->|[->|[->|[]]]]; by simplify_map_eq.
Qed.

Lemma hard_coded_names_not_empty :
  Forall (fun m => m <> EmptyString)
    (missing_mutations ++ missing_queries ++ missing_subscriptions).
Proof. repeat constructor; discriminate. Qed.

(** C4 (the code departs from the claim): when the contract text lacks
    the block of one of the three interfaces, the generator does not
    finish with zero methods for it: looking the interface up raises
    KeyError for the first absent interface, and no output is written. *)
Theorem C4_absent_interface_raises_KeyError (content : string) :
  (exists n, n ∈ iface_names
             /\ Regex.search_block (Regex.iface_lit n) content = None) ->
  exists n, n ∈ iface_names
            /\ Regex.search_block (Regex.iface_lit n) content = None
            /\ main (Some content) = Raise (KeyError n).
Proof.
  intros (n & Hn & Hnone).
  pose proof hard_coded_names_not_empty as Hall.
  rewrite !Forall_app in Hall. destruct Hall as (Hm & Hq & Hs).
  unfold main. cbn [mbind result_bind].
  destruct (extract_interfaces content !! "MutationResolver") as [b1|] eqn:E1.
  2:{ exists "MutationResolver". split; [unfold iface_names; in_list|].
      rewrite <- extract_interfaces_lookup by (unfold iface_names; in_list).
      split; [exact E1|]. by rewrite gen_group_absent. }
  destruct (gen_group_present _ _ "mutationResolver" _ _ header E1 Hm)
    as [out1 ->].
  cbn [mbind result_bind].
  destruct (extract_interfaces content !! "QueryResolver") as [b2|] eqn:E2.
  2:{ exists "QueryResolver". split; [unfold iface_names; in_list|].
      rewrite <- extract_interfaces_lookup by (unfold iface_names; in_list).
      split; [exact E2|]. by rewrite gen_group_absent. }
  destruct (gen_group_present _ _ "queryResolver" _ _ out1 E2 Hq)
    as [out2 ->].
  cbn [mbind result_bind].
  destruct (extract_interfaces content !! "SubscriptionResolver")
    as [b3|] eqn:E3.
  2:{ exists "SubscriptionResolver".
      split; [unfold iface_names; in_list|].
      rewrite <- extract_interfaces_lookup by (unfold iface_names; in_list).
      split; [exact E3|]. by rewrite gen_group_absent. }
  exfalso. rewrite <- extract_interfaces_lookup in Hnone by exact Hn.
  unfold iface_names in Hn. rewrite !elem_of_cons, elem_of_nil in Hn.
  destruct Hn as [->|[->|[->|[]]]]; congruence.
Qed.

Lemma C4_witness :
  exists n, n ∈ iface_names
            /\ Regex.search_block (Regex.iface_lit n) EmptyString = None
            /\ main (Some EmptyString) = Raise (KeyError n).
Proof.
  apply (C4_absent_interface_raises_KeyError EmptyString).
  exists "QueryResolver". split; [|reflexivity].
  unfold iface_names. in_list.
Defined.

(** The same run, evaluated. *)
Lemma gen_stubs_on_empty_contract :
  main (Some EmptyString) = Raise (KeyError "MutationResolver").
Proof. vm_compute. reflexivity. Qed.

End gen_stubs_script.

(** * The translation tool *)

Lemma state_eq (r1 r2 : gmap string Translate.file)
    (e1 e2 : list Translate.event) (c1 c2 : nat) :
  r1 = r2 -> e1 = e2 -> c1 = c2 ->
  {| Translate.fs := r1; Translate.events := e1; Translate.calls := c1 |}
  = {| Translate.fs := r2; Translate.events := e2; Translate.calls := c2 |}.
Proof. by intros -> -> ->. Qed.

(** Two records of states with the same fields. *)
Ltac same_state :=
  cbv [Props.advanced Props.logged Props.announced];
  cbn [Translate.fs Translate.events Translate.calls];
  apply state_eq;
  [ done
  | rewrite <- ?app_assoc, ?app_nil_r; cbn [app]; done
  | lia ].

(** Two outcomes with the same result and the same state. *)
Ltac same_outcome :=
  first [ reflexivity | f_equal; first [ reflexivity | same_state ] ].

Section translate.
Import PyStr Translate Props.

(** ** Dictionaries *)

Lemma dict_set_fresh (k v v' : string) (pre post : dict) :
  k ∉ keys pre ->
  dict_set k v' (pre ++ (k, v) :: post) = pre ++ (k, v') :: post.
Proof.
  induction pre as [|[k0 v0] pre IH]; intros Hk; simpl.
  - by rewrite String.eqb_refl.
  - unfold keys in Hk. simpl in Hk. apply not_elem_of_cons in Hk as [Hne Hk].
    destruct (String.eqb_spec k0 k) as [->|_]; [done|].
    by rewrite IH.
Qed.


Lemma kept_or_translated_keys (tr : service) (lang : string)
    (old new : dict) :
  Forall2 (kept_or_translated tr lang) old new -> keys new = keys old.
Proof.
  induction 1 as [|o n old new [Hk _] _ IH]; [reflexivity|].
  unfold keys in *. simpl. by rewrite Hk, IH.
Qed.

(** ** States *)

Lemma advanced_nil (st : state) : advanced st [] 0 = st.
Proof. destruct st. unfold advanced. cbn. by rewrite app_nil_r. Qed.

Lemma advanced_advanced (st : state) (evs1 evs2 : list event) (n1 n2 : nat) :
  advanced (advanced st evs1 n1) evs2 n2
  = advanced st (evs1 ++ evs2) (n1 + n2).
Proof.
  unfold advanced. cbn [fs events calls].
  apply state_eq; [done|by rewrite app_assoc|lia].
Qed.

Lemma bind_run {A B} (m : M A) (k : A -> M B) (st : state) :
  (m ≫= k) st
  = match m st with
    | (Ok a, st') => k a st'
    | (Raise e, st') => (Raise e, st')
    end.
Proof. reflexivity. Qed.

Lemma print_run (line : string) (st : state) :
  print line st = (Ok tt, logged st [Print line]).
Proof. reflexivity. Qed.

Lemma banner_run (title : string) (st : state) :
  banner title st = (Ok tt, logged st (banner_lines title)).
Proof.
  unfold banner, mbind, M_bind. rewrite !print_run. same_outcome.
Qed.

Lemma rate_limits_app (a b : list event) :
  rate_limits (a ++ b) = rate_limits a + rate_limits b.
Proof.
  induction a as [|e a IH]; [done|]. destruct e; cbn; by rewrite ?IH.
Qed.

(** ** The retry loop *)

(** The loop returns, whatever the service does: it has made between one
    and [remaining] calls, has written no file and has not paused for the
    rate limit; an answer it returns is one the service gave; when every
    call fails it returns nothing. *)
Lemma translate_attempts_spec (tr : service) (text lang : string)
    (max_retries : nat) :
  forall (remaining attempt : nat) (st : state),
  exists r evs n,
    translate_attempts tr text lang max_retries remaining attempt st
    = (Ok r, advanced st evs n)
    /\ Forall quiet evs
    /\ rate_limits evs = 0
    /\ n <= remaining
    /\ (0 < remaining -> 0 < n)
    /\ (forall t, r = Some t -> exists k, tr k text lang = Translated t)
    /\ ((forall j, j < remaining -> has_failed (tr (calls st + j) text lang))
        -> r = None).
Proof.
  induction remaining as [|remaining IH]; intros attempt st.
  - exists None, [], 0. rewrite advanced_nil.
    split; [done|]. split; [done|]. split; [done|]. split; [lia|].
    split; [done|]. split; [done|done].
  - cbn [translate_attempts]. unfold mbind at 1, M_bind at 1, call_service at 1.
    destruct (tr (calls st) text lang) as [t|e] eqn:Et.
    + exists (Some t), [], 1. split.
      { unfold mret, M_ret, advanced. cbn [fs events calls].
        by rewrite app_nil_r. }
      split; [done|]. split; [done|]. split; [lia|]. split; [lia|]. split.
      * intros t' [= <-]. eauto.
      * intros Hfail. specialize (Hfail 0 ltac:(lia)).
        rewrite Nat.add_0_r, Et in Hfail. discriminate Hfail.
    + destruct (attempt <? max_retries - 1).
      * unfold mbind at 1, M_bind at 1. rewrite print_run.
        unfold mbind at 1, M_bind at 1, emit at 1.
        match goal with |- context [translate_attempts _ _ _ _ _ _ ?s] =>
          destruct (IH (S attempt) s)
            as (r & evs & n & -> & Hq & Hr & Hn & Hpos & Hans & Hnone)
        end.
        exists r,
          (Print (retrying_line ((attempt + 1) * 2) e)
           :: Sleep ((attempt + 1) * 2) :: evs), (S n).
        split.
        { same_outcome. }
        split; [by repeat constructor|]. split; [done|].
        split; [lia|]. split; [lia|]. split; [done|].
        intros Hfail. apply Hnone.
        intros j Hj. cbn [calls logged advanced].
        replace (0 + S (calls st) + j) with (calls st + S j) by lia.
        apply Hfail. lia.
      * unfold mbind at 1, M_bind at 1. rewrite print_run.
        exists None, [Print (gave_up_line max_retries e)], 1. split.
        { unfold mret, M_ret. same_outcome. }
        split; [by repeat constructor|]. split; [done|].
        split; [lia|]. split; [lia|]. split; [done|done].
Qed.

(** ** The loop of phase 3 *)

(** The lines a turn of the loop prints before it calls the service. *)
Lemma progress_print_run (p : progress) (total : nat) (st : state) :
  (if ((translated p + failed p) mod 50 =? 0)
      || (translated p + failed p =? 0)
   then print (progress_line (translated p + failed p) total)
   else mret tt) st
  = (Ok tt, logged st (progress_report p total)).
Proof.
  unfold progress_report.
  destruct (((translated p + failed p) mod 50 =? 0)
            || (translated p + failed p =? 0)).
  - apply print_run.
  - unfold mret, M_ret, logged. by rewrite advanced_nil.
Qed.

(** One turn: the entry is counted as translated or as failed, and the
    turn returns exactly when [time.sleep] takes the delay. *)
Lemma translate_entry_spec (tr : service) (lang key text : string)
    (d : Delay) (total : nat) (p : progress) (st : state) :
  exists p' evs n,
    translate_entry (Some tr) lang d total p (key, text) st
    = (match sleep_error d with None => Ok p' | Some e => Raise e end,
       advanced st
         (evs ++ match sleep_error d with
                 | None => [RateLimit]
                 | Some _ => []
                 end) n)
    /\ Forall quiet evs
    /\ rate_limits evs = 0
    /\ 0 < n <= 3
    /\ translated p' + failed p' = S (translated p + failed p)
    /\ failed p <= failed p'
    /\ (current p' = current p
        \/ exists t k, tr k text lang = Translated t
                       /\ current p' = dict_set key t (current p))
    /\ ((forall j, j < 3 -> has_failed (tr (calls st + j) text lang)) ->
        p' = {| current := current p; translated := translated p;
                failed := S (failed p) |}).
Proof.
  unfold translate_entry, translate_text.
  unfold mbind at 1, M_bind at 1. rewrite progress_print_run.
  destruct (translate_attempts_spec tr text lang 3 3 0
              (logged st (progress_report p total)))
    as (r & evs & n & E & Hq & Hr & Hn & Hpos & Hans & Hnone).
  unfold mbind at 1, M_bind at 1. rewrite E.
  unfold mbind, M_bind, time_sleep, emit, raise, mret, M_ret.
  eexists _, (progress_report p total ++ evs), n. split.
  { destruct (sleep_error d); same_outcome. }
  split.
  { apply Forall_app. split; [|done]. unfold progress_report.
    destruct (_ || _); by repeat constructor. }
  split.
  { rewrite rate_limits_app, Hr. unfold progress_report.
    by destruct (_ || _). }
  split; [lia|].
  destruct r as [t|]; [destruct (truthy t)|]; cbn [translated failed current].
  - split; [lia|]. split; [lia|]. split.
    + right. destruct (Hans t eq_refl) as [k Hk]. eauto.
    + intros Hfail. discriminate (Hnone Hfail).
  - split; [lia|]. split; [lia|]. split; [by left|done].
  - split; [lia|]. split; [lia|]. split; [by left|done].
Qed.

Lemma translate_entries_cons (translator : option service) (lang : string)
    (d : Delay) (total : nat) (p : progress) (entry : string * string)
    (rest : dict) (st : state) :
  translate_entries translator lang d total p (entry :: rest) st
  = match translate_entry translator lang d total p entry st with
    | (Ok p1, st1) => translate_entries translator lang d total p1 rest st1
    | (Raise e, st1) => (Raise e, st1)
    end.
Proof. reflexivity. Qed.

(** With a delay that [time.sleep] takes, the loop goes through all the
    entries. *)
Lemma translate_entries_spec (tr : service) (lang : string) (d : Delay)
    (total : nat) (entries : dict) :
  sleep_error d = None ->
  forall (p : progress) (st : state),
  exists p' evs n,
    translate_entries (Some tr) lang d total p entries st
    = (Ok p', advanced st evs n)
    /\ Forall quiet evs
    /\ rate_limits evs = length entries
    /\ length entries <= n <= 3 * length entries
    /\ translated p' + failed p'
       = translated p + failed p + length entries
    /\ failed p <= failed p'
    /\ (forall done_ todo, current p = done_ ++ entries ++ todo ->
        NoDup (keys (done_ ++ entries)) ->
        exists new, current p' = done_ ++ new ++ todo
                    /\ Forall2 (kept_or_translated tr lang) entries new).
Proof.
  intros Hd. induction entries as [|[key text] entries IH]; intros p st.
  - exists p, [], 0. rewrite advanced_nil. cbn [length].
    split; [done|]. split; [done|]. split; [done|]. split; [lia|].
    split; [lia|]. split; [lia|].
    intros done_ todo Hcur _. exists []. split; [done|constructor].
  - rewrite translate_entries_cons.
    destruct (translate_entry_spec tr lang key text d total p st)
      as (p1 & evs1 & n1 & E1 & Hq1 & Hr1 & Hn1 & Hc1 & Hf1 & Hcur1 & _).
    rewrite Hd in E1. rewrite E1.
    destruct (IH p1 (advanced st (evs1 ++ [RateLimit]) n1))
      as (p' & evs & n & E & Hq & Hr & Hn & Hc & Hf & Hcur).
    exists p', ((evs1 ++ [RateLimit]) ++ evs), (n1 + n).
    split; [by rewrite E, advanced_advanced|].
    split.
    { apply Forall_app. split; [|done]. apply Forall_app. split; [done|].
      by repeat constructor. }
    split; [rewrite !rate_limits_app, Hr1, Hr; cbn; lia|].
    split; [cbn [length]; lia|]. split; [cbn [length]; lia|].
    split; [lia|].
    intros done_ todo Hp Hnd.
    assert (Hfresh : key ∉ keys done_).
    { unfold keys in *. rewrite map_app in Hnd.
      apply NoDup_app in Hnd as (_ & Hdis & _). intros Hin.
      apply (Hdis key Hin). cbn. apply list_elem_of_here. }
    assert (exists v, current p1 = (done_ ++ [(key, v)]) ++ entries ++ todo
                      /\ kept_or_translated tr lang (key, text) (key, v))
      as (v & Hp1 & Hv).
    { destruct Hcur1 as [Hsame|(t & k & Ht & Hset)].
      - exists text. split; [|split; [done|by left]].
        by rewrite Hsame, Hp, <- app_assoc.
      - exists t. split; [|split; [done|right; eauto]].
        rewrite Hset, Hp. cbn [app].
        by rewrite dict_set_fresh, <- app_assoc. }
    destruct (Hcur _ _ Hp1) as (new & Hnew & Hall).
    { unfold keys in *. rewrite <- app_assoc. cbn.
      rewrite !map_app in *. exact Hnd. }
    exists ((key, v) :: new). split; [by rewrite Hnew, <- app_assoc|].
    by constructor.
Qed.

(** With a delay that [time.sleep] refuses, the loop ends in the pause
    that follows the first entry. *)
Lemma translate_entries_raise (tr : service) (lang : string) (d : Delay)
    (total : nat) (e : exn) (entry : string * string) (rest : dict)
    (p : progress) (st : state) :
  sleep_error d = Some e ->
  exists evs n,
    translate_entries (Some tr) lang d total p (entry :: rest) st
    = (Raise e, advanced st evs n)
    /\ Forall quiet evs
    /\ rate_limits evs = 0
    /\ 0 < n <= 3.
Proof.
  intros Hd. rewrite translate_entries_cons. destruct entry as [key text].
  destruct (translate_entry_spec tr lang key text d total p st)
    as (p1 & evs1 & n1 & E1 & Hq1 & Hr1 & Hn1 & _).
  rewrite Hd in E1. rewrite E1, app_nil_r. by exists evs1, n1.
Qed.


Lemma table_languages_truthy (locale lang : string) :
  dict_get locale LOCALE_TO_GOOGLE_LANG = Some lang -> truthy lang = true.
Proof.
  unfold LOCALE_TO_GOOGLE_LANG. cbn [dict_get].
  repeat (destruct (String.eqb _ locale); [by intros [= <-]|]).
  discriminate.
Qed.

(** What phase 3 does to a locale file it can load. *)
Lemma phase3_run (tr : service) (locale lang : string) (d : Delay)
    (st : state) (data : locale_data) :
  fs st !! locale_file locale = Some (Json data) ->
  dict_get locale LOCALE_TO_GOOGLE_LANG = Some lang ->
  let entries := get_translations data in
  phase3_translate_locale (Some tr) locale d st
  = match translate_entries (Some tr) lang d (length entries)
            (fresh entries) entries (announced locale lang st) with
    | (Ok p', st1) =>
        (Ok true,
         {| fs := <[locale_file locale :=
                      Json (set_translations data (current p'))]> (fs st1);
            events :=
              events st1
              ++ [ Save (locale_file locale)
                     (set_translations data (current p'));
                   Print (completed_line locale);
                   Print (translated_line (translated p') (length entries)) ]
              ++ (if 0 <? failed p'
                  then [ Print (failed_line (failed p') (length entries)) ]
                  else []);
            calls := calls st1 |})
    | (Raise e, st1) => (Raise e, st1)
    end.
Proof.
  intros Hfile Hlang entries.
  unfold phase3_translate_locale.
  rewrite bool_decide_false by discriminate.
  unfold mbind at 1, M_bind at 1, exists_ at 1.
  rewrite bool_decide_true by (rewrite Hfile; eauto). cbn [negb].
  rewrite Hlang, (table_languages_truthy _ _ Hlang). cbn [negb].
  do 3 (unfold mbind at 1, M_bind at 1; rewrite print_run).
  unfold mbind at 1, M_bind at 1, load_json at 1.
  cbn [fs logged advanced]. rewrite Hfile.
  unfold mbind at 1, M_bind at 1. fold entries.
  change (translate_entries (Some tr) lang d (length entries)
            {| current := entries; translated := 0; failed := 0 |} entries ?s)
    with (translate_entries (Some tr) lang d (length entries) (fresh entries)
            entries s).
  replace (logged (logged (logged st [Print (newline +:+ thin_rule)])
                     [Print (translating_line locale lang)])
             [Print thin_rule])
    with (announced locale lang st) by same_state.
  destruct (translate_entries _ _ _ _ _ _ _) as [[p'|e] st1]; [|done].
  unfold mbind, M_bind, save_json, print, emit, mret, M_ret.
  cbn [fs events calls].
  destruct (0 <? failed p'); cbn [fs events calls]; same_outcome.
Qed.

(** C10: when phase 3 processes a locale file, the translations it saves
    have the keys of the loaded ones, in the same order, and each value is
    the loaded value or an answer of the service for that value; the other
    entries of the file are saved as they were loaded.  The file is saved
    whenever [time.sleep] takes the delay between calls, or there is no
    entry to pause after; with a delay that [time.sleep] refuses, the
    phase raises in the pause after the first entry, and no file has been
    written. *)
Theorem C10_phase3_keeps_the_keys (tr : service) (locale lang : string)
    (d : Delay) (st : state) (data : locale_data) :
  fs st !! locale_file locale = Some (Json data) ->
  dict_get locale LOCALE_TO_GOOGLE_LANG = Some lang ->
  NoDup (keys (get_translations data)) ->
  (sleep_error d = None \/ get_translations data = [] ->
   exists saved st',
     phase3_translate_locale (Some tr) locale d st = (Ok true, st')
     /\ fs st' !! locale_file locale
        = Some (Json (set_translations data saved))
     /\ Save (locale_file locale) (set_translations data saved) ∈ events st'
     /\ keys saved = keys (get_translations data)
     /\ Forall2 (kept_or_translated tr lang) (get_translations data) saved)
  /\ (forall e, sleep_error d = Some e -> get_translations data <> [] ->
      exists evs n,
        phase3_translate_locale (Some tr) locale d st
        = (Raise e, advanced st evs n)
        /\ Forall quiet evs
        /\ 0 < n <= 3).
Proof.
  intros Hfile Hlang Hnd.
  pose proof (phase3_run tr locale lang d st data Hfile Hlang) as Hrun.
  cbn zeta in Hrun. split.
  - intros Hok.
    assert (exists p' evs n,
              translate_entries (Some tr) lang d
                (length (get_translations data))
                (fresh (get_translations data)) (get_translations data)
                (announced locale lang st)
              = (Ok p', advanced (announced locale lang st) evs n)
              /\ Forall2 (kept_or_translated tr lang)
                   (get_translations data) (current p'))
      as (p' & evs & n & E & Hall).
    { destruct Hok as [Hd|Hnil].
      - destruct (translate_entries_spec tr lang d
                    (length (get_translations data)) (get_translations data)
                    Hd (fresh (get_translations data))
                    (announced locale lang st))
          as (p' & evs & n & E & _ & _ & _ & _ & _ & Hcur).
        destruct (Hcur [] []) as (new & Hnew & Hall).
        { cbn. by rewrite app_nil_r. }
        { exact Hnd. }
        cbn in Hnew. rewrite app_nil_r in Hnew. rewrite <- Hnew in Hall.
        by exists p', evs, n.
      - rewrite Hnil. exists (fresh []), [], 0. rewrite advanced_nil.
        split; [reflexivity|constructor]. }
    rewrite E in Hrun.
    eexists (current p'), _. split; [exact Hrun|]. cbn [fs events].
    split; [apply lookup_insert_eq|]. split.
    { apply elem_of_app. right. apply elem_of_app. left.
      apply list_elem_of_here. }
    split; [by eapply kept_or_translated_keys|done].
  - intros e Hd Hne.
    destruct (get_translations data) as [|entry rest] eqn:Hentries; [done|].
    destruct (translate_entries_raise tr lang d (length (entry :: rest)) e
                entry rest (fresh (entry :: rest)) (announced locale lang st)
                Hd) as (evs & n & E & Hq & _ & Hn).
    rewrite E in Hrun.
    exists (announcement locale lang ++ evs), n. split.
    { rewrite Hrun. unfold announced, logged.
      by rewrite advanced_advanced. }
    split; [|done]. apply Forall_app. split; [|done].
    by repeat constructor.
Qed.

Lemma C10_witness :
  exists saved st',
    phase3_translate_locale (Some flaky) "fa" default_delay (start demo_files)
    = (Ok true, st')
    /\ fs st' !! locale_file "fa" = Some (Json (set_translations demo_data saved))
    /\ Save (locale_file "fa") (set_translations demo_data saved) ∈ events st'
    /\ keys saved = keys (get_translations demo_data)
    /\ Forall2 (kept_or_translated flaky "fa") (get_translations demo_data)
         saved.
Proof.
  apply (C10_phase3_keeps_the_keys flaky "fa" "fa" default_delay
           (start demo_files) demo_data).
  - reflexivity.
  - reflexivity.
  - repeat constructor; cbn; rewrite ?elem_of_cons, ?elem_of_nil;
      intros H; repeat destruct H as [H|H]; try discriminate; done.
  - left. reflexivity.
Defined.



(** ** Backups and writes *)

Lemma last_char_app (a b : string) (c : ascii) :
  last_char b = Some c -> last_char (a +:+ b) = Some c.
Proof.
  intros H. induction a as [|x a IH]; [done|].
  change (String x a +:+ b) with (String x (a +:+ b)). cbn [last_char].
  by rewrite IH.
Qed.

Lemma locale_file_not_backup (locale path : string) :
  locale_file locale <> backup_path path.
Proof.
  intros H. apply (f_equal last_char) in H. unfold locale_file, backup_path in H.
  rewrite (last_char_app _ (locale +:+ ".json") "n"%char) in H
    by (by apply last_char_app).
  rewrite (last_char_app path ".bak" "k"%char) in H by reflexivity.
  discriminate.
Qed.

Lemma safe_mono (seen seen' : gset string) (trace : list event) :
  seen ⊆ seen' -> safe seen trace -> safe seen' trace.
Proof.
  revert seen seen'. induction trace as [|e trace IH]; intros seen seen' Hsub;
    [done|].
  destruct e; cbn; try by apply IH.
  - apply IH. by apply union_mono_l.
  - intros [Hin Hs]. split; [by apply Hsub|by eapply IH].
Qed.

Lemma backups_app (a b : list event) :
  backups (a ++ b) = backups a ∪ backups b.
Proof.
  induction a as [|e a IH]; cbn; [by rewrite union_empty_l_L|].
  destruct e; try done. by rewrite IH, (assoc_L (∪)).
Qed.

Lemma safe_app (seen : gset string) (a b : list event) :
  safe seen a -> safe (backups a ∪ seen) b -> safe seen (a ++ b).
Proof.
  revert seen. induction a as [|e a IH]; intros seen Ha Hb; cbn in *.
  - by rewrite union_empty_l_L in Hb.
  - destruct e; cbn in *; try by apply IH.
    + apply IH; [done|].
      eapply safe_mono; [|exact Hb].
      intros x. rewrite !elem_of_union. tauto.
    + destruct Ha as [Hin Ha]. split; [done|by apply IH].
Qed.

Lemma safe_quiet (seen : gset string) (evs : list event) :
  Forall quiet evs -> safe seen evs.
Proof. induction 1 as [|e evs He _ IH]; [done|]. by destruct e. Qed.

Lemma safe_backed_up_from (seen : gset string) (trace : list event) :
  safe seen trace ->
  forall i path data,
    trace !! i = Some (Save path data) ->
    path ∈ seen
    \/ exists j, j < i /\ trace !! j = Some (Backup path (backup_path path)).
Proof.
  revert seen. induction trace as [|e trace IH]; intros seen Hs i path data Hi;
    [done|].
  destruct i as [|i].
  - cbn in Hi. injection Hi as ->. cbn in Hs. left. tauto.
  - cbn in Hi.
    assert (Hnext : forall seen', safe seen' trace ->
              path ∈ seen'
              \/ exists j, j < S i
                     /\ (e :: trace) !! j
                        = Some (Backup path (backup_path path))).
    { intros seen' Hs'. destruct (IH seen' Hs' i path data Hi) as [?|(j & ? & ?)];
        [by left|]. right. exists (S j). split; [lia|done]. }
    destruct e as [p b| | | |]; cbn in Hs; try by apply Hnext.
    + destruct (Hnext _ Hs) as [Hin|?]; [|by right].
      apply elem_of_union in Hin as [Hin|Hin]; [|by left].
      destruct (decide (b = backup_path p)) as [->|];
        [|by apply not_elem_of_empty in Hin].
      apply elem_of_singleton in Hin as ->.
      right. exists 0. split; [lia|done].
    + apply Hnext. tauto.
Qed.

Lemma safe_backed_up (trace : list event) : safe ∅ trace -> backed_up trace.
Proof.
  intros Hs i path data Hi.
  destruct (safe_backed_up_from ∅ trace Hs i path data Hi) as [Hin|?]; [|done].
  by apply not_elem_of_empty in Hin.
Qed.

Lemma string_length_app (a b : string) :
  String.length (a +:+ b) = String.length a + String.length b.
Proof.
  induction a as [|x a IH]; [done|].
  change (String x a +:+ b) with (String x (a +:+ b)). cbn. by rewrite IH.
Qed.

Lemma path_not_its_backup (path : string) : path <> backup_path path.
Proof.
  intros H. apply (f_equal String.length) in H. unfold backup_path in H.
  rewrite string_length_app in H. cbn in H. lia.
Qed.

(** ** Invariants of a run *)

Lemma sound_advanced (st : state) (evs : list event) (n : nat) :
  Forall quiet evs -> sound st -> sound (advanced st evs n).
Proof.
  intros Hq Hs. unfold sound, advanced. cbn [events].
  apply safe_app; [done|]. by apply safe_quiet.
Qed.

Lemma guarded_advanced (ls : list string) (st : state) (evs : list event)
    (n : nat) :
  Forall quiet evs -> guarded ls st -> guarded ls (advanced st evs n).
Proof.
  intros Hq [Hs Hc]. split; [by apply sound_advanced|].
  intros l Hl Hex. unfold advanced. cbn [events].
  rewrite backups_app. apply elem_of_union_l. by apply Hc.
Qed.

Lemma covered_subset (ls ls' : list string) (st : state) :
  (forall l, l ∈ ls' -> l ∈ ls) -> covered ls st -> covered ls' st.
Proof. intros Hsub Hc l Hl. apply Hc. by apply Hsub. Qed.

Lemma guarded_subset (ls ls' : list string) (st : state) :
  (forall l, l ∈ ls' -> l ∈ ls) -> guarded ls st -> guarded ls' st.
Proof. intros Hsub [Hs Hc]. split; [done|]. by eapply covered_subset. Qed.

Lemma guarded_start (files : gmap string file) : guarded [] (start files).
Proof. split; [done|]. intros l Hl. by apply elem_of_nil in Hl. Qed.

(** ** Rules for the steps of a run *)

Lemma hoare_bind {A B} (P : state -> Prop) (Q : A -> state -> Prop)
    (R : B -> state -> Prop) (m : M A) (k : A -> M B) :
  hoare P m Q -> (forall a, hoare (Q a) (k a) R) -> hoare P (m ≫= k) R.
Proof.
  intros Hm Hk st HP. specialize (Hm st HP). unfold mbind, M_bind.
  destruct (m st) as [[a|e] st1]; [|done]. by apply Hk.
Qed.

Lemma hoare_weaken {A} (P P' : state -> Prop) (Q Q' : A -> state -> Prop)
    (m : M A) :
  (forall st, P' st -> P st) -> (forall a st, Q a st -> Q' a st) ->
  hoare P m Q -> hoare P' m Q'.
Proof.
  intros HP HQ Hm st HP'. specialize (Hm st (HP st HP')).
  destruct (m st) as [[a|e] st1]; [by apply HQ|done].
Qed.

Lemma hoare_ret {A} (P : state -> Prop) (a : A) :
  hoare P (mret a) (fun _ => P).
Proof. by intros st HP. Qed.

Lemma hoare_raise {A} (ls : list string) (Q : A -> state -> Prop) (e : exn) :
  hoare (guarded ls) (raise e) Q.
Proof. by intros st [Hs _]. Qed.

Lemma hoare_print (ls : list string) (line : string) :
  hoare (guarded ls) (print line) (fun _ => guarded ls).
Proof.
  intros st Hg. rewrite print_run. apply guarded_advanced; [|done].
  by repeat constructor.
Qed.

Lemma hoare_banner (ls : list string) (title : string) :
  hoare (guarded ls) (banner title) (fun _ => guarded ls).
Proof.
  unfold banner. repeat (eapply hoare_bind; [apply hoare_print|intros ?; cbv beta]).
  apply hoare_print.
Qed.

(** A run of steps that each keep [guarded ls]. *)
Ltac hoare_steps :=
  repeat first
    [ apply hoare_print
    | apply hoare_banner
    | apply hoare_ret
    | apply hoare_raise
    | eapply hoare_bind; [first [apply hoare_print | apply hoare_banner]|intros ?; cbv beta] ].

Lemma hoare_backup_file (ls : list string) (l : string) :
  hoare (guarded ls) (backup_file (locale_file l))
    (fun _ => guarded (l :: ls)).
Proof.
  intros st [Hs Hc]. unfold backup_file.
  destruct (fs st !! locale_file l) as [f|] eqn:E.
  - split.
    + unfold sound. cbn [events]. apply safe_app; [done|]. by cbn.
    + intros l' Hl' Hex. cbn [events fs] in *. rewrite backups_app.
      rewrite lookup_insert_ne in Hex
        by (intros Heq; symmetry in Heq; by apply locale_file_not_backup in Heq).
      apply elem_of_cons in Hl' as [->|Hl'].
      * apply elem_of_union_r. cbn. rewrite decide_True by done.
        apply elem_of_union_l, elem_of_singleton. done.
      * apply elem_of_union_l. by apply Hc.
  - split; [done|]. intros l' Hl' Hex.
    apply elem_of_cons in Hl' as [->|Hl']; [|by apply Hc].
    rewrite E in Hex. by destruct Hex.
Qed.

Lemma hoare_load_json (ls : list string) (path : string) :
  hoare (guarded ls) (load_json path)
    (fun _ st => guarded ls st /\ is_Some (fs st !! path)).
Proof.
  intros st Hg. unfold load_json.
  destruct (fs st !! path) as [[data|]|] eqn:E; [|by destruct Hg..].
  split; [done|]. rewrite E. eauto.
Qed.

Lemma hoare_save_json (ls : list string) (l : string) (data : locale_data) :
  l ∈ ls ->
  hoare (fun st => guarded ls st /\ is_Some (fs st !! locale_file l))
    (save_json (locale_file l) data) (fun _ => guarded ls).
Proof.
  intros Hl st [[Hs Hc] Hex]. unfold save_json. split.
  - unfold sound. cbn [events]. apply safe_app; [done|]. cbn.
    split; [|done]. apply elem_of_union_l. by apply Hc.
  - intros l' Hl' Hex'. cbn [events fs] in *. rewrite backups_app.
    apply elem_of_union_l.
    destruct (decide (locale_file l' = locale_file l)) as [Heq|Hne].
    + rewrite Heq. by apply Hc.
    + rewrite lookup_insert_ne in Hex' by done. by apply Hc.
Qed.

(** ** The three phases *)

Lemma hoare_phase1 (ls : list string) :
  hoare (guarded ls) phase1_update_english (fun _ => guarded ls).
Proof.
  unfold phase1_update_english.
  apply (hoare_weaken (guarded ls) (guarded ls)
           (fun _ => guarded ("en" :: ls)) (fun _ => guarded ls));
    [done| |].
  { intros _ st H. eapply guarded_subset; [|exact H].
    intros l' Hl'. by apply list_elem_of_further. }
  eapply hoare_bind; [apply hoare_banner|intros ?; cbv beta].
  eapply hoare_bind; [apply hoare_backup_file|intros ?; cbv beta].
  eapply hoare_bind; [apply hoare_load_json|intros data; cbv beta].
  eapply hoare_bind;
    [apply hoare_save_json; apply list_elem_of_here|intros ?; cbv beta].
  hoare_steps.
Qed.

Lemma hoare_copy_to_locale (ls : list string) (english : dict) (l : string) :
  hoare (guarded ls) (copy_to_locale english l) (fun _ => guarded (l :: ls)).
Proof.
  unfold copy_to_locale. intros st Hg.
  unfold mbind at 1, M_bind at 1, exists_ at 1.
  destruct (fs st !! locale_file l) as [f|] eqn:E.
  - rewrite bool_decide_true by eauto. cbn [negb]. revert st Hg E.
    assert (H : hoare (guarded ls)
                  (backup_file (locale_file l);;
                   data ← load_json (locale_file l);
                   save_json (locale_file l) (set_translations data english);;
                   print (copied_line l))
                  (fun _ => guarded (l :: ls))).
    { eapply hoare_bind; [apply hoare_backup_file|intros ?; cbv beta].
      eapply hoare_bind; [apply hoare_load_json|intros data; cbv beta].
      eapply hoare_bind;
        [apply hoare_save_json; apply list_elem_of_here|intros ?; cbv beta].
      apply hoare_print. }
    intros st Hg _. by apply H.
  - rewrite bool_decide_false by (by intros [? ?]). cbn [negb].
    rewrite print_run. apply guarded_advanced; [by repeat constructor|].
    destruct Hg as [Hs Hc]. split; [done|]. intros l' Hl' Hex.
    apply elem_of_cons in Hl' as [->|Hl']; [|by apply Hc].
    rewrite E in Hex. by destruct Hex.
Qed.

Lemma hoare_phase2_loop (english : dict) (locales : list string) :
  forall ls : list string,
    hoare (guarded ls) (for_each (copy_to_locale english) locales)
      (fun _ => guarded (locales ++ ls)).
Proof.
  induction locales as [|l locales IH]; intros ls.
  - apply hoare_ret.
  - cbn [for_each].
    eapply hoare_bind; [apply hoare_copy_to_locale|intros ?; cbv beta].
    eapply hoare_weaken; [intros st H; exact H| |apply IH].
    intros r st H. cbv beta in H. eapply guarded_subset; [|exact H].
    intros l'. rewrite !elem_of_app, !elem_of_cons. tauto.
Qed.

Lemma hoare_phase2 (english : dict) :
  hoare (guarded []) (phase2_copy_to_locales english)
    (fun _ => guarded ALL_LOCALES).
Proof.
  unfold phase2_copy_to_locales.
  eapply hoare_bind; [apply hoare_banner|intros ?; cbv beta].
  eapply hoare_weaken; [intros st H; exact H| |apply hoare_phase2_loop].
  intros r st H. cbv beta in H. by rewrite app_nil_r in H.
Qed.

(** Phase 3 writes a file with no backup of its own: it is safe for the
    locales that have been backed up before. *)
Lemma hoare_phase3 (ls : list string) (translator : option service)
    (l : string) (d : Delay) :
  l ∈ ls ->
  hoare (guarded ls) (phase3_translate_locale translator l d)
    (fun _ => guarded ls).
Proof.
  intros Hl st Hg.
  destruct translator as [tr|].
  2:{ unfold phase3_translate_locale. rewrite bool_decide_true by done.
      revert st Hg. change (hoare (guarded ls)
        (print (not_installed_line l);; mret false) (fun _ => guarded ls)).
      hoare_steps. }
  destruct (fs st !! locale_file l) as [[data|]|] eqn:E.
  - destruct (dict_get l LOCALE_TO_GOOGLE_LANG) as [lang|] eqn:El.
    + rewrite (phase3_run tr l lang d st data E El). cbn zeta.
      assert (Hg0 : guarded ls (announced l lang st)).
      { apply guarded_advanced; [by repeat constructor|done]. }
      assert (exists r evs n,
                translate_entries (Some tr) lang d
                  (length (get_translations data))
                  (fresh (get_translations data)) (get_translations data)
                  (announced l lang st)
                = (r, advanced (announced l lang st) evs n)
                  /\ Forall quiet evs) as (r & evs & n & -> & Hq).
      { destruct (sleep_error d) as [e|] eqn:Hd.
        - destruct (get_translations data) as [|entry rest].
          + exists (Ok (fresh [])), [], 0. by rewrite advanced_nil.
          + destruct (translate_entries_raise tr lang d
                        (length (entry :: rest)) e entry rest
                        (fresh (entry :: rest)) (announced l lang st) Hd)
              as (evs & n & -> & Hq & _). eauto.
        - destruct (translate_entries_spec tr lang d
                      (length (get_translations data))
                      (get_translations data) Hd
                      (fresh (get_translations data)) (announced l lang st))
            as (p' & evs & n & -> & Hq & _). eauto. }
      pose proof (guarded_advanced ls _ evs n Hq Hg0) as Hg1.
      destruct r as [p'|e]; [|by destruct Hg1].
      set (st1 := advanced (announced l lang st) evs n) in *.
      assert (Hsave : guarded ls
                (save_json (locale_file l)
                   (set_translations data (current p')) st1).2).
      { pose proof (hoare_save_json ls l
                      (set_translations data (current p')) Hl st1) as H.
        cbn in H. apply H. split; [done|].
        subst st1. cbn [fs advanced announced logged]. rewrite E. eauto. }
      unfold save_json in Hsave. cbn [snd] in Hsave.
      match goal with |- guarded ls ?s =>
        replace s with
          (advanced
             {| fs := <[locale_file l :=
                          Json (set_translations data (current p'))]> (fs st1);
                events := events st1
                          ++ [Save (locale_file l)
                                (set_translations data (current p'))];
                calls := calls st1 |}
             ([ Print (completed_line l);
                Print (translated_line (translated p')
                         (length (get_translations data))) ]
              ++ (if 0 <? failed p'
                  then [ Print (failed_line (failed p')
                                  (length (get_translations data))) ]
                  else [])) 0)
          by same_state
      end.
      apply guarded_advanced; [|done].
      destruct (0 <? failed p'); by repeat constructor.
    + unfold phase3_translate_locale.
      rewrite bool_decide_false by discriminate.
      unfold mbind at 1, M_bind at 1, exists_ at 1.
      rewrite bool_decide_true by (rewrite E; eauto). cbn [negb].
      rewrite El. revert Hg. generalize st.
      change (hoare (guarded ls)
        (print (unknown_locale_line l);; mret false) (fun _ => guarded ls)).
      hoare_steps.
  - unfold phase3_translate_locale.
    rewrite bool_decide_false by discriminate.
    unfold mbind at 1, M_bind at 1, exists_ at 1.
    rewrite bool_decide_true by (rewrite E; eauto). cbn [negb].
    destruct (dict_get l LOCALE_TO_GOOGLE_LANG) as [lang|] eqn:El.
    + rewrite (table_languages_truthy _ _ El). cbn [negb].
      do 3 (unfold mbind at 1, M_bind at 1; rewrite print_run).
      unfold mbind at 1, M_bind at 1, load_json at 1.
      cbn [fs logged advanced]. rewrite E.
      destruct Hg as [Hs _]. unfold logged.
      do 3 (apply sound_advanced; [by repeat constructor|]). done.
    + revert Hg. generalize st.
      change (hoare (guarded ls)
        (print (unknown_locale_line l);; mret false) (fun _ => guarded ls)).
      hoare_steps.
  - unfold phase3_translate_locale.
    rewrite bool_decide_false by discriminate.
    unfold mbind at 1, M_bind at 1, exists_ at 1.
    rewrite bool_decide_false by (rewrite E; by intros [? ?]). cbn [negb].
    revert Hg. generalize st.
    change (hoare (guarded ls)
      (print (not_found_line (locale_file l));; mret false)
      (fun _ => guarded ls)).
    hoare_steps.
Qed.

Lemma hoare_translate_locales (ls : list string)
    (translator : option service) (d : Delay) (locales : list string) :
  (forall l, l ∈ locales -> l ∈ ls) ->
  forall success_count : nat,
    hoare (guarded ls) (translate_locales translator d locales success_count)
      (fun _ => guarded ls).
Proof.
  induction locales as [|l locales IH]; intros Hsub success_count.
  - apply hoare_ret.
  - cbn [translate_locales].
    eapply hoare_bind;
      [apply hoare_phase3, Hsub, list_elem_of_here|intros ok; cbv beta].
    apply IH. intros l' Hl'. by apply Hsub, list_elem_of_further.
Qed.

Lemma hoare_main (translator : option service) (a : args) :
  skip_phase2 a = false \/ wants_phase3 a = false ->
  chosen a ⊆ ALL_LOCALES ->
  hoare (guarded []) (main translator a) (fun _ => sound).
Proof.
  intros Hphase Hchosen. unfold main.
  change (all a || match locales a with Some (_ :: _) => true | _ => false end)
    with (wants_phase3 a).
  change (if all a then ALL_LOCALES else default [] (locales a))
    with (chosen a).
  set (ls := if skip_phase2 a then [] else ALL_LOCALES).
  (* phase 1, or the load that stands for it *)
  apply (hoare_bind _ (fun _ => guarded [])).
  { destruct (skip_phase1 a); cbn [negb]; [|apply hoare_phase1].
    eapply hoare_bind; [apply hoare_print|intros ?; cbv beta].
    eapply hoare_bind; [apply hoare_load_json|intros data; cbv beta].
    intros st [Hg _]. exact Hg. }
  intros english.
  (* phase 2 *)
  apply (hoare_bind _ (fun _ => guarded ls)).
  { subst ls. destruct (skip_phase2 a); cbn [negb];
      [apply hoare_print|apply hoare_phase2]. }
  intros _.
  (* phase 3 *)
  apply (hoare_bind _ (fun _ => guarded ls)).
  2:{ intros _. intros st Hg. rewrite print_run.
      apply sound_advanced; [by repeat constructor|by destruct Hg]. }
  destruct (wants_phase3 a) eqn:Hw.
  - destruct (bool_decide (translator = None)); [hoare_steps|].
    eapply hoare_bind; [apply hoare_banner|intros ?; cbv beta].
    eapply hoare_bind; [apply hoare_print|intros ?; cbv beta].
    eapply hoare_bind; [apply hoare_print|intros ?; cbv beta].
    eapply hoare_bind; [|intros success_count; cbv beta; hoare_steps].
    apply hoare_translate_locales. intros l Hl. subst ls.
    destruct Hphase as [->|Hno]; [by apply Hchosen|congruence].
  - hoare_steps.
Qed.

(** The run keeps every write behind a backup of the same file, whether
    it ends normally or raises. *)
Lemma run_sound (translator : option service) (a : args)
    (files : gmap string file) :
  skip_phase2 a = false \/ wants_phase3 a = false ->
  chosen a ⊆ ALL_LOCALES ->
  sound (run translator a files).2.
Proof.
  intros Hphase Hchosen.
  assert (H : hoare (guarded [])
                (import_googletrans translator;; main translator a)
                (fun _ => sound)).
  { eapply hoare_bind; [|intros ?; cbv beta; by apply hoare_main].
    unfold import_googletrans.
    destruct (bool_decide (translator = None)); hoare_steps. }
  specialize (H (start files) (guarded_start files)).
  unfold run. fold (start files).
  by destruct ((import_googletrans translator;; main translator a)
                 (start files)) as [[[]|e] st'].
Qed.

Lemma phase_sound {A} (m : M A) (Q : A -> state -> Prop)
    (files : gmap string file) :
  hoare (guarded []) m Q -> (forall a st, Q a st -> sound st) ->
  sound (m (start files)).2.
Proof.
  intros H HQ. specialize (H (start files) (guarded_start files)).
  destruct (m (start files)) as [[a|e] st']; [by eapply HQ|done].
Qed.

(** C6, as stated, fails: with phases 1 and 2 skipped, phase 3 writes the
    Persian file, which exists, and no backup of it is made in the run. *)
Lemma C6_phase3_writes_without_backup :
  is_Some (demo_files !! "message.fa.json")
  /\ events (run (Some flaky) only_translate_fa demo_files).2
     = [ Print (newline +:+ "Skipping Phase 1 (English replacement)");
         Print (newline +:+ "Skipping Phase 2 (copying to locales)");
         Print (newline +:+ rule);
         Print "PHASE 3: Translating Locale Files";
         Print rule;
         Print "Target locales: fa";
         Print "Delay between calls: 0.2s";
         Print (newline +:+ thin_rule);
         Print "Translating: fa (fa)";
         Print thin_rule;
         Print "  Progress: 0/2 entries processed...";
         Print "  ⚠ Translation failed, retrying in 2s... (timed out)";
         Sleep 2;
         Print "  ⚠ Translation failed, retrying in 4s... (timed out)";
         Sleep 4;
         Print "  ✗ Translation failed after 3 attempts: timed out";
         RateLimit;
         RateLimit;
         Save "message.fa.json"
           {| translations := Some [ ("hello", "Hello");
                                     ("bye", "Goodbye (fa)") ];
              others := [ ("locale", "fa") ] |};
         Print (newline +:+ "✓ Completed: fa");
         Print "  - Successfully translated: 1/2";
         Print "  - Failed (kept English): 1/2";
         Print (newline +:+ rule);
         Print "TRANSLATION SUMMARY";
         Print rule;
         Print "Successfully translated: 1/1 locales";
         Print (newline +:+ "✓ All operations completed!") ]
  /\ ~ backed_up (events (run (Some flaky) only_translate_fa demo_files).2).
Proof.
  split; [by eexists|].
  match goal with |- ?t = ?l /\ _ =>
    assert (Htrace : t = l) by (vm_compute; reflexivity)
  end.
  split; [exact Htrace|].
  rewrite Htrace. intros H.
  destruct (H 18 _ _ eq_refl) as (j & Hj & Hbk).
  do 18 (destruct j as [|j]; [discriminate Hbk|]). lia.
Qed.

(** C6 (amended): phase 1 and phase 2 copy a file to its backup path
    before they write it.  Phase 3 makes no backup of its own; in a run
    where phase 2 is not skipped, or where phase 3 is not asked for, every
    write still comes after a backup of the same file made in that run. *)
Theorem C6_writes_follow_a_backup_if_phase2_runs
    (translator : option service) (a : args) (english : dict)
    (files : gmap string file) :
  backed_up (events (phase1_update_english (start files)).2)
  /\ backed_up (events (phase2_copy_to_locales english (start files)).2)
  /\ (skip_phase2 a = false \/ wants_phase3 a = false ->
      chosen a ⊆ ALL_LOCALES ->
      backed_up (events (run translator a files).2)).
Proof.
  split; [|split].
  - apply safe_backed_up.
    apply (phase_sound _ _ files (hoare_phase1 [])). by intros _ st [? _].
  - apply safe_backed_up.
    apply (phase_sound _ _ files (hoare_phase2 english)). by intros _ st [? _].
  - intros Hphase Hchosen. apply safe_backed_up. by apply run_sound.
Qed.

Lemma C6_witness :
  backed_up (events (run (Some flaky) translate_fa demo_files).2).
Proof.
  apply (C6_writes_follow_a_backup_if_phase2_runs
           (Some flaky) translate_fa [] demo_files).
  - by left.
  - intros locale Hin. apply list_elem_of_singleton in Hin as ->.
    unfold ALL_LOCALES. in_list.
Defined.

End translate.

(** * Further properties of the stub generator *)

Section gen_stubs_more.
Import PyStr GenStubs Props.

Lemma cut_last_none (sep : ascii) (s : string) :
  has_char sep s = false -> cut_last sep s = None.
Proof.
  induction s as [|x s IH]; [done|]. cbn.
  intros H. apply orb_false_iff in H as [Hx Hs].
  by rewrite IH, Hx.
Qed.

Lemma cut_last_app (sep : ascii) (a b : string) :
  has_char sep b = false ->
  cut_last sep (a +:+ String sep b) = Some (a, b).
Proof.
  intros Hb. induction a as [|x a IH].
  - change (EmptyString +:+ String sep b) with (String sep b).
    cbn [cut_last]. rewrite cut_last_none by done. by rewrite Ascii.eqb_refl.
  - change (String x a +:+ String sep b) with (String x (a +:+ String sep b)).
    cbn [cut_last]. by rewrite IH.
Qed.

Lemma has_char_lstrip (c : ascii) (s : string) :
  has_char c (lstrip s) = true -> has_char c s = true.
Proof.
  induction s as [|x s IH]; [done|]. cbn.
  destruct (isspace x); [|done].
  intros H. rewrite (IH H). apply orb_true_r.
Qed.

Lemma has_char_rstrip (c : ascii) (s : string) :
  has_char c (rstrip s) = true -> has_char c s = true.
Proof.
  induction s as [|x s IH]; [done|]. cbn.
  destruct (is_empty (rstrip s) && isspace x); [done|]. cbn.
  intros H. apply orb_true_iff in H as [->|H]; [done|].
  rewrite (IH H). apply orb_true_r.
Qed.

Lemma has_char_endswith (c : ascii) (s : string) :
  endswith (String c EmptyString) s = true -> has_char c s = true.
Proof.
  induction s as [|x s IH]; [done|]. cbn.
  intros H. apply orb_true_iff in H as [H|H].
  - destruct (Ascii.eqb x c); [done|discriminate].
  - rewrite (IH H). apply orb_true_r.
Qed.

(** X1: a signature that ends with a closing parenthesis, as every
    signature with a parenthesised return list does, has an empty parsed
    return list, and the body of its stub is a bare return of nil. *)
Theorem X1_signature_ending_with_paren_returns_nil (sig : string) :
  endswith ")" sig = true ->
  parse_return_type sig = EmptyString
  /\ return_line (gen_zero_return (parse_return_type sig))
     = String Regex.tab "return nil".
Proof.
  intros H. unfold parse_return_type, rsplit1.
  destruct (cut_last_closing ")"%char sig H) as [a ->]. by split.
Qed.

Lemma X1_witness :
  parse_return_type "Stats(ctx context.Context) (int, error)" = EmptyString
  /\ return_line (gen_zero_return
                    (parse_return_type "Stats(ctx context.Context) (int, error)"))
     = String Regex.tab "return nil".
Proof.
  apply (X1_signature_ending_with_paren_returns_nil
           "Stats(ctx context.Context) (int, error)").
  reflexivity.
Defined.

(** X2: when the text after the last closing parenthesis of a signature
    holds no parenthesis (a single bare return type), the parsed return
    list is that text without the spaces around it. *)
Theorem X2_bare_return_type_is_stripped (params ret : string) :
  has_char ")"%char ret = false ->
  parse_return_type (params +:+ String ")"%char ret) = strip ret.
Proof.
  intros H. unfold parse_return_type, rsplit1. rewrite cut_last_app by done.
  destruct (endswith ")" (strip ret)) eqn:E; [|by rewrite andb_false_r].
  apply has_char_endswith in E. unfold strip in E.
  apply has_char_rstrip, has_char_lstrip in E. congruence.
Qed.

Lemma X2_witness :
  parse_return_type ("Health(ctx context.Context" +:+ String ")"%char " bool")
  = strip " bool".
Proof.
  apply (X2_bare_return_type_is_stripped "Health(ctx context.Context" " bool").
  reflexivity.
Defined.

Lemma extract_method_sig_first (body method : string) :
  match extract_method_sig body method with
  | Some sig =>
      exists before line after,
        split "010"%char body = before ++ line :: after
        /\ sig = strip line
        /\ startswith (method +:+ "(") sig = true
        /\ Forall (fun l => startswith (method +:+ "(") (strip l) = false)
             before
  | None =>
      Forall (fun l => startswith (method +:+ "(") (strip l) = false)
        (split "010"%char body)
  end.
Proof.
  unfold extract_method_sig. generalize (split "010"%char body).
  intros lines. induction lines as [|l lines IH]; [by constructor|].
  destruct (startswith (method +:+ "(") (strip l)) eqn:E.
  - exists [], l, lines. by repeat split.
  - match type of IH with
    | match ?t with _ => _ end => destruct t as [sig|] eqn:Eg
    end.
    + destruct IH as (before & line & after & -> & Hs & Hm & Hb).
      exists (l :: before), line, after. repeat split; try done.
      by constructor.
    + by constructor.
Qed.

Lemma startswith_truthy (method sig : string) :
  startswith (method +:+ "(") sig = true -> truthy sig = true.
Proof. destruct sig; [by destruct method|done]. Qed.

(** X3: the signature found for a method is the first line of the
    interface body that, once stripped, starts with the method name
    followed by an opening parenthesis, so a method whose name only begins
    another one is not mistaken for it; when no line does, nothing is
    found. *)
Theorem X3_signature_is_first_matching_line (body method : string) :
  match extract_method_sig body method with
  | Some sig =>
      exists before line after,
        split "010"%char body = before ++ line :: after
        /\ sig = strip line
        /\ startswith (method +:+ "(") sig = true
        /\ Forall (fun l => startswith (method +:+ "(") (strip l) = false)
             before
  | None =>
      Forall (fun l => startswith (method +:+ "(") (strip l) = false)
        (split "010"%char body)
  end.
Proof. apply extract_method_sig_first. Qed.

Lemma gen_group_closed (interfaces : gmap string string)
    (iface_name receiver body : string) (missing stubs : list string) :
  interfaces !! iface_name = Some body ->
  Forall (fun m => m <> EmptyString) missing ->
  gen_group interfaces iface_name receiver missing stubs
  = Ok (stubs
        ++ flat_map
             (fun method =>
                match extract_method_sig body method with
                | Some sig => stub_block receiver method sig
                | None => []
                end) missing).
Proof.
  intros Hb Hm. revert stubs.
  induction Hm as [|m missing Hne _ IH]; intros stubs.
  - cbn. by rewrite app_nil_r.
  - cbn [gen_group flat_map]. unfold stub_lines, getitem. rewrite Hb.
    cbn [mbind result_bind].
    pose proof (extract_method_sig_first body m) as Hfirst.
    destruct (extract_method_sig body m) as [sig|].
    + destruct Hfirst as (_ & _ & _ & _ & _ & Hstart & _).
      rewrite (startswith_truthy _ _ Hstart).
      destruct m as [|c m]; [done|]. cbn [lower_first mbind result_bind].
      rewrite IH, <- app_assoc. reflexivity.
    + cbn [mbind result_bind]. rewrite IH, app_nil_r. reflexivity.
Qed.

(** X4: a generation loop keeps the lines it is given and appends, in the
    order of the list of missing methods, the five lines of the stub of
    each method that has a signature in the interface body, and nothing
    for a method that has none. *)
Theorem X4_loop_appends_stub_blocks_in_order (interfaces : gmap string string)
    (iface_name receiver body : string) (missing stubs : list string) :
  interfaces !! iface_name = Some body ->
  Forall (fun m => m <> EmptyString) missing ->
  gen_group interfaces iface_name receiver missing stubs
  = Ok (stubs
        ++ flat_map
             (fun method =>
                match extract_method_sig body method with
                | Some sig => stub_block receiver method sig
                | None => []
                end) missing).
Proof. apply gen_group_closed. Qed.

Lemma X4_witness :
  gen_group {[ "QueryResolver" := "Health(ctx context.Context) bool" ]}
    "QueryResolver" "queryResolver" [ "Absent"; "Health" ] [ "package resolver" ]
  = Ok ([ "package resolver" ]
        ++ flat_map
             (fun method =>
                match extract_method_sig "Health(ctx context.Context) bool"
                        method with
                | Some sig => stub_block "queryResolver" method sig
                | None => []
                end) [ "Absent"; "Health" ]).
Proof.
  apply (X4_loop_appends_stub_blocks_in_order
           {[ "QueryResolver" := "Health(ctx context.Context) bool" ]}
           "QueryResolver" "queryResolver" "Health(ctx context.Context) bool").
  - reflexivity.
  - repeat constructor; discriminate.
Defined.

(** X5: when the contract text holds the block of each of the three
    interfaces, the generator ends normally: the text it writes starts
    with the fixed header lines, and it announces 30 stubs, the size of
    the hard-coded lists, however many stubs it wrote. *)
Theorem X5_generator_succeeds_when_blocks_are_present (content : string) :
  (forall n, n ∈ iface_names ->
     is_Some (Regex.search_block (Regex.iface_lit n) content)) ->
  exists out rest,
    main (Some content) = Ok out
    /\ stubs_resolvers_go out = join newline (header ++ rest)
    /\ stdout out = [ "Generated 30 stubs";
                      "Written to graph/resolver/stubs.resolvers.go" ].
Proof.
  intros Hall.
  pose proof hard_coded_names_not_empty as Hne.
  rewrite !Forall_app in Hne. destruct Hne as (Hm & Hq & Hs).
  assert (Hb : forall n, n ∈ iface_names ->
                 exists b, extract_interfaces content !! n = Some b).
  { intros n Hn. rewrite extract_interfaces_lookup by done.
    destruct (Hall n Hn) as [b ->]. eauto. }
  destruct (Hb "MutationResolver") as [b1 E1]; [unfold iface_names; in_list|].
  destruct (Hb "QueryResolver") as [b2 E2]; [unfold iface_names; in_list|].
  destruct (Hb "SubscriptionResolver") as [b3 E3];
    [unfold iface_names; in_list|].
  unfold main. cbn [mbind result_bind].
  rewrite (gen_group_closed _ _ _ _ _ _ E1 Hm). cbn [mbind result_bind].
  rewrite (gen_group_closed _ _ _ _ _ _ E2 Hq). cbn [mbind result_bind].
  rewrite (gen_group_closed _ _ _ _ _ _ E3 Hs). cbn [mbind result_bind].
  eexists _, _. split; [reflexivity|]. cbn [stubs_resolvers_go stdout].
  split; [by rewrite <- !app_assoc|]. vm_compute. reflexivity.
Qed.

Lemma X5_witness :
  exists out rest,
    main (Some contract_with_three_blocks) = Ok out
    /\ stubs_resolvers_go out = join newline (header ++ rest)
    /\ stdout out = [ "Generated 30 stubs";
                      "Written to graph/resolver/stubs.resolvers.go" ].
Proof.
  apply (X5_generator_succeeds_when_blocks_are_present
           contract_with_three_blocks).
  intros n Hn. unfold iface_names in Hn.
  rewrite !elem_of_cons, elem_of_nil in Hn.
  destruct Hn as [->|[->|[->|[]]]]; vm_compute; eauto.
Defined.

End gen_stubs_more.

(** * Further properties of the report of missing methods *)

Section find_missing_more.
Import PyStr FindMissing Props.

Lemma span_spec (p : ascii -> bool) (s : string) :
  all_chars p (span p s).1 = true
  /\ s = (span p s).1 +:+ (span p s).2
  /\ match (span p s).2 with
     | EmptyString => True
     | String x _ => p x = false
     end.
Proof.
  induction s as [|x s (IH1 & IH2 & IH3)]; [done|]. cbn [span].
  destruct (p x) eqn:E; [|done].
  destruct (span p s) as [a b]. cbn [fst snd] in *.
  cbn [all_chars]. rewrite E, IH1. repeat split; [|done].
  change (String x s = String x (a +:+ b)). by rewrite <- IH2.
Qed.

Lemma startswith_drop (lit s : string) :
  startswith lit s = true -> s = lit +:+ drop (String.length lit) s.
Proof.
  unfold startswith. revert s. induction lit as [|x lit IH]; intros s H.
  - by destruct s.
  - destruct s as [|y s]; [done|]. cbn in H.
    destruct (ascii_dec x y) as [->|]; [|done].
    cbn [String.length drop].
    change (String y s = String y (lit +:+ drop (String.length lit) s)).
    by rewrite <- IH.
Qed.

Lemma block_body_spec (s b : string) :
  Regex.block_body s = Some b ->
  truthy b = true /\ has_char "}"%char b = false
  /\ exists rest, s = b +:+ "}" +:+ rest.
Proof.
  unfold Regex.block_body.
  pose proof (span_spec (fun c => negb (Ascii.eqb c Regex.rbrace)) s)
    as (Hall & Hs & _).
  destruct (span _ s) as [run rest]. cbn [fst snd] in *.
  destruct (truthy run) eqn:Et; [|done]. cbn [andb].
  destruct (startswith "}" rest) eqn:Er; [|done].
  intros [= <-]. split; [done|]. split.
  - clear -Hall. induction run as [|x run IH]; [done|].
    cbn in *. apply andb_true_iff in Hall as [Hx Hr].
    rewrite (IH Hr). unfold Regex.rbrace in Hx.
    by destruct (Ascii.eqb x "}").
  - apply startswith_drop in Er. exists (drop 1 rest).
    rewrite Hs at 1. by rewrite Er at 1.
Qed.

(** X6: the block found for an interface is not empty, holds no closing
    brace, and stands in the text right after the opening line of the
    interface and right before a closing brace: the block ends at the
    first closing brace, also when a method signature holds braces. *)
Theorem X6_block_ends_at_first_closing_brace (lit s b : string) :
  Regex.search_block lit s = Some b ->
  truthy b = true
  /\ has_char "}"%char b = false
  /\ exists before after, s = before +:+ lit +:+ b +:+ "}" +:+ after.
Proof.
  induction s as [|x s IH]; cbn [Regex.search_block].
  - destruct (startswith lit EmptyString) eqn:E; [|done].
    destruct (Regex.block_body _) as [b'|] eqn:Eb; [|done].
    intros [= ->]. destruct (block_body_spec _ _ Eb) as (? & ? & rest & Hr).
    split; [done|]. split; [done|]. exists EmptyString, rest.
    rewrite (startswith_drop _ _ E) at 1. by rewrite Hr at 1.
  - destruct (if startswith lit (String x s)
              then Regex.block_body (drop (String.length lit) (String x s))
              else None) as [b'|] eqn:Eb.
    + intros [= ->]. destruct (startswith lit (String x s)) eqn:E; [|done].
      destruct (block_body_spec _ _ Eb) as (? & ? & rest & Hr).
      split; [done|]. split; [done|]. exists EmptyString, rest.
      rewrite (startswith_drop _ _ E) at 1. by rewrite Hr at 1.
    + intros H. destruct (IH H) as (? & ? & before & after & ->).
      split; [done|]. split; [done|]. by exists (String x before), after.
Qed.

Lemma X6_witness :
  truthy " Run(opts struct{" = true
  /\ has_char "}"%char " Run(opts struct{" = false
  /\ exists before after,
       "type QueryResolver interface { Run(opts struct{}) error }"
       = before +:+ Regex.iface_lit "QueryResolver" +:+ " Run(opts struct{"
           +:+ "}" +:+ after.
Proof.
  apply (X6_block_ends_at_first_closing_brace
           (Regex.iface_lit "QueryResolver")
           "type QueryResolver interface { Run(opts struct{}) error }").
  reflexivity.
Defined.

Lemma word_paren_name (s w : string) :
  Regex.word_paren s = Some w -> is_name w.
Proof.
  unfold Regex.word_paren.
  pose proof (span_spec isword s) as (Hall & _).
  destruct (span isword s) as [a rest]. cbn [fst] in Hall.
  destruct (truthy a) eqn:Et; [|done]. cbn [andb].
  destruct (startswith "(" rest); [|done]. by intros [= <-].
Qed.

Lemma search_word_paren_name (lit s w : string) :
  Regex.search_word_paren lit s = Some w -> is_name w.
Proof.
  induction s as [|x s IH]; cbn [Regex.search_word_paren].
  - destruct (startswith lit EmptyString); [|done].
    destruct (Regex.word_paren _) as [w'|] eqn:E; [|done].
    intros [= ->]. by eapply word_paren_name.
  - destruct (if startswith lit (String x s)
              then Regex.word_paren (drop (String.length lit) (String x s))
              else None) as [w'|] eqn:E; [|exact IH].
    intros [= ->]. destruct (startswith lit (String x s)); [|done].
    by eapply word_paren_name.
Qed.

Lemma findall_names (s : string) :
  Forall is_name (Regex.findall_tab_word_paren s).
Proof.
  induction s as [|x s IH]; [constructor|]. cbn [Regex.findall_tab_word_paren].
  destruct (if Ascii.eqb x Regex.tab then Regex.word_paren s else None)
    as [w|] eqn:E; [|done].
  constructor; [|done]. destruct (Ascii.eqb x Regex.tab); [|done].
  by eapply word_paren_name.
Qed.

Lemma scan_line_names (receiver line : string) (acc : gset string) :
  (forall m, m ∈ acc -> is_name m) ->
  forall m, m ∈ scan_line receiver acc line -> is_name m.
Proof.
  intros Hacc m. unfold scan_line.
  destruct (Regex.search_word_paren _ line) as [w|] eqn:E; [|apply Hacc].
  intros [Hm|Hm]%elem_of_union; [|by apply Hacc].
  apply elem_of_singleton in Hm as ->. by eapply search_word_paren_name.
Qed.

Lemma scan_lines_names (receiver : string) (lines : list string) :
  forall acc : gset string,
    (forall m, m ∈ acc -> is_name m) ->
    forall m, m ∈ foldl (scan_line receiver) acc lines -> is_name m.
Proof.
  induction lines as [|l lines IH]; intros acc Hacc; [done|].
  cbn [foldl]. apply IH. by apply scan_line_names.
Qed.

Lemma scan_files_names (receiver : string)
    (files : list (string * option string)) :
  forall acc found : gset string,
    (forall m, m ∈ acc -> is_name m) ->
    scan_files receiver files acc = Ok found ->
    forall m, m ∈ found -> is_name m.
Proof.
  induction files as [|[gofile content] files IH]; intros acc found Hacc.
  - by intros [= <-].
  - cbn [scan_files]. destruct (endswith "_test.go" gofile); [by apply IH|].
    destruct content as [text|]; [|done].
    apply IH. by apply scan_lines_names.
Qed.

Lemma extract_interfaces_sets (content iface_name : string)
    (required : gset string) :
  extract_interfaces content !! iface_name = Some required ->
  exists body, required = list_to_set (Regex.findall_tab_word_paren body).
Proof.
  unfold extract_interfaces, iface_names. cbn [foldl].
  destruct (Regex.search_block (Regex.iface_lit "MutationResolver") content);
  destruct (Regex.search_block (Regex.iface_lit "QueryResolver") content);
  destruct (Regex.search_block (Regex.iface_lit "SubscriptionResolver")
              content);
  intros H;
  repeat (apply lookup_insert_Some in H as [[_ <-]|[_ H]]; [by eexists|]);
  by rewrite lookup_empty in H.
Qed.

(** X7: every method name the report can show, whether required by an
    interface or found implemented in a scanned file, is a non-empty run
    of word characters. *)
Theorem X7_reported_names_are_words (content iface_name receiver : string)
    (files : list (string * option string)) (found : gset string) :
  (forall m, m ∈ required_of (extract_interfaces content) iface_name ->
     is_name m)
  /\ (scan_files receiver files ∅ = Ok found ->
      forall m, m ∈ found -> is_name m).
Proof.
  split.
  - unfold required_of. intros m.
    destruct (extract_interfaces content !! iface_name) as [required|] eqn:E;
      cbn [default]; [|by intros ?%not_elem_of_empty].
    destruct (extract_interfaces_sets _ _ _ E) as [body ->].
    intros Hm%elem_of_list_to_set.
    pose proof (findall_names body) as Hall. rewrite Forall_forall in Hall.
    by apply Hall.
  - intros Hscan. eapply scan_files_names; [|exact Hscan].
    by intros m ?%not_elem_of_empty.
Qed.

Lemma X7_witness : is_name "Foo".
Proof.
  apply (proj2 (X7_reported_names_are_words EmptyString "QueryResolver"
                  "queryResolver" locked_files_readable {[ "Foo" ]})).
  - vm_compute. reflexivity.
  - by apply elem_of_singleton.
Defined.

Lemma scan_lines_union (receiver : string) (lines : list string) :
  forall acc : gset string,
    foldl (scan_line receiver) acc lines
    = acc ∪ foldl (scan_line receiver) ∅ lines.
Proof.
  induction lines as [|l lines IH]; intros acc; cbn [foldl].
  - by rewrite union_empty_r_L.
  - rewrite IH, (IH (scan_line receiver ∅ l)). unfold scan_line.
    destruct (Regex.search_word_paren _ l) as [w|].
    + rewrite union_empty_r_L, (comm_L (∪) {[w]} acc). by rewrite (assoc_L (∪)).
    + by rewrite union_empty_l_L.
Qed.

Lemma scan_texts_union (receiver : string) (texts : list string) :
  forall acc : gset string,
    scan_texts receiver texts acc
    = acc ∪ ⋃ (methods_of receiver <$> texts).
Proof.
  unfold scan_texts.
  induction texts as [|t texts IH]; intros acc; cbn [foldl fmap list_fmap].
  - by rewrite union_list_nil, union_empty_r_L.
  - rewrite IH, union_list_cons, scan_lines_union.
    unfold methods_of. by rewrite (assoc_L (∪)).
Qed.

Lemma scanned_texts_perm (files files' : list (string * option string)) :
  files ≡ₚ files' -> scanned_texts files ≡ₚ scanned_texts files'.
Proof.
  induction 1 as [|f l l' _ IH|f g l|l l' l'' _ IH1 _ IH2]; cbn [scanned_texts].
  - done.
  - destruct f.2; [destruct (is_test f)|]; by rewrite ?IH.
  - destruct f.2, g.2; try destruct (is_test f); try destruct (is_test g);
      try done. apply perm_swap.
  - by etrans.
Qed.

Lemma first_unreadable_none (files : list (string * option string)) :
  first_unreadable files = None
  <-> Forall (fun f => negb (is_test f) && bool_decide (f.2 = None) = false)
        files.
Proof.
  induction files as [|f files IH]; cbn [first_unreadable].
  - split; [constructor|done].
  - destruct (negb (is_test f) && bool_decide (f.2 = None)) eqn:E.
    + split; [done|]. intros H. inversion H; congruence.
    + rewrite IH. split; [by constructor|]. by inversion 1.
Qed.

(** X8: when every scanned file can be opened, the whole output of a run
    depends neither on the order in which the files are listed nor on a
    file being listed more than once. *)
Theorem X8_report_ignores_listing_order (content : string)
    (files files' : list (string * option string)) :
  first_unreadable files = None ->
  files ≡ₚ files' ->
  main {| generated_go := Some content; resolver_go := files' |}
  = main {| generated_go := Some content; resolver_go := files |}
  /\ main {| generated_go := Some content; resolver_go := files ++ files' |}
     = main {| generated_go := Some content; resolver_go := files |}.
Proof.
  intros Hok Hperm.
  assert (Hok' : first_unreadable files' = None).
  { apply first_unreadable_none. rewrite <- Hperm.
    by apply first_unreadable_none. }
  assert (Hok2 : first_unreadable (files ++ files') = None).
  { apply first_unreadable_none, Forall_app.
    split; by apply first_unreadable_none. }
  assert (Hsame : forall receiver,
            scan_texts receiver (scanned_texts files') ∅
            = scan_texts receiver (scanned_texts files) ∅).
  { intros receiver. rewrite !scan_texts_union. f_equal.
    apply leibniz_equiv. by rewrite (scanned_texts_perm _ _ Hperm). }
  assert (Happ : forall receiver,
            scan_texts receiver (scanned_texts (files ++ files')) ∅
            = scan_texts receiver (scanned_texts files) ∅).
  { intros receiver. rewrite !scan_texts_union. f_equal.
    assert (Hs : scanned_texts (files ++ files')
                 = scanned_texts files ++ scanned_texts files').
    { clear. induction files as [|f files IH]; [done|]. cbn [app scanned_texts].
      destruct f.2; [destruct (is_test f)|]; by rewrite IH. }
    rewrite Hs, fmap_app, union_list_app_L.
    replace (⋃ (methods_of receiver <$> scanned_texts files'))
      with (⋃ (methods_of receiver <$> scanned_texts files)).
    - by rewrite union_idemp_L.
    - apply leibniz_equiv. by rewrite (scanned_texts_perm _ _ Hperm). }
  rewrite !main_prints_the_reports by done.
  unfold resolver_types. cbn [flat_map]. by rewrite !Hsame, !Happ.
Qed.

Lemma X8_witness :
  main {| generated_go := Some EmptyString;
          resolver_go := reverse locked_files_readable |}
  = main {| generated_go := Some EmptyString;
            resolver_go := locked_files_readable |}
  /\ main {| generated_go := Some EmptyString;
             resolver_go := locked_files_readable
                            ++ reverse locked_files_readable |}
     = main {| generated_go := Some EmptyString;
               resolver_go := locked_files_readable |}.
Proof.
  apply (X8_report_ignores_listing_order EmptyString locked_files_readable
           (reverse locked_files_readable)).
  - reflexivity.
  - symmetry. apply reverse_Permutation.
Defined.

Lemma length_sorted (s : gset string) : length (sorted s) = size s.
Proof. unfold sorted. by rewrite merge_sort_Permutation. Qed.

(** X9: in the heading of an interface, the number of missing methods is
    the number of required methods less those of them that are
    implemented; implemented methods that the interface does not require
    are counted as implemented but never as missing. *)
Theorem X9_missing_count (required implemented : gset string) :
  length (missing_of required implemented)
  = size required - size (required ∩ implemented)
  /\ length (missing_of required implemented) + size (required ∩ implemented)
     = size required.
Proof.
  unfold missing_of. rewrite length_sorted.
  pose proof (size_difference_alt required implemented) as H.
  assert (size (required ∩ implemented) <= size required).
  { apply subseteq_size, intersection_subseteq_l. }
  lia.
Qed.

End find_missing_more.

(** * The report of the missing methods *)

Section find_missing_report.
Import PyStr FindMissing Props.

Lemma elem_of_scanned_texts (files : list (string * option string))
    (text : string) :
  text ∈ scanned_texts files
  <-> exists path, (path, Some text) ∈ files /\ endswith "_test.go" path = false.
Proof.
  induction files as [|[path content] files IH]; cbn [scanned_texts snd].
  - rewrite elem_of_nil. split; [done|]. intros (? & H & _).
    by apply elem_of_nil in H.
  - unfold is_test. cbn [fst].
    destruct content as [t|]; [destruct (endswith "_test.go" path) eqn:E|].
    + rewrite IH. split; intros (p & Hin & Hp).
      * exists p. split; [by apply list_elem_of_further|done].
      * apply elem_of_cons in Hin as [[= -> ->]|Hin]; [congruence|eauto].
    + rewrite elem_of_cons, IH. split.
      * intros [->|(p & Hin & Hp)].
        -- exists path. split; [apply list_elem_of_here|done].
        -- exists p. split; [by apply list_elem_of_further|done].
      * intros (p & Hin & Hp).
        apply elem_of_cons in Hin as [[= -> ->]|Hin]; [by left|right; eauto].
    + rewrite IH. split; intros (p & Hin & Hp).
      * exists p. split; [by apply list_elem_of_further|done].
      * apply elem_of_cons in Hin as [[=]|Hin]. eauto.
Qed.

Lemma elem_of_scan_lines (receiver : string) (lines : list string)
    (m : string) :
  m ∈ foldl (scan_line receiver) ∅ lines
  <-> exists line,
        line ∈ lines
        /\ Regex.search_word_paren (Regex.method_lit receiver) line = Some m.
Proof.
  induction lines as [|l lines IH]; cbn [foldl].
  - split; [by intros ?%not_elem_of_empty|].
    intros (? & H & _). by apply elem_of_nil in H.
  - rewrite scan_lines_union, elem_of_union, IH. unfold scan_line. split.
    + intros [H|(line & Hin & Hs)].
      * destruct (Regex.search_word_paren _ l) as [w|] eqn:E;
          [|by apply not_elem_of_empty in H].
        rewrite union_empty_r_L in H. apply elem_of_singleton in H as ->.
        exists l. split; [apply list_elem_of_here|done].
      * exists line. split; [by apply list_elem_of_further|done].
    + intros (line & Hin & Hs). apply elem_of_cons in Hin as [->|Hin].
      * left. rewrite Hs, union_empty_r_L. by apply elem_of_singleton.
      * right. eauto.
Qed.

Lemma elem_of_scan_texts (receiver : string)
    (files : list (string * option string)) (m : string) :
  m ∈ scan_texts receiver (scanned_texts files) ∅
  <-> implements files receiver m.
Proof.
  rewrite scan_texts_union, union_empty_l_L, elem_of_union_list.
  unfold implements. split.
  - intros (X & HX & Hm). apply list_elem_of_fmap in HX as (text & -> & Ht).
    apply elem_of_scanned_texts in Ht as (path & Hin & Hp).
    apply elem_of_scan_lines in Hm as (line & Hl & Hs).
    by exists path, text, line.
  - intros (path & text & line & Hin & Hp & Hl & Hs).
    exists (methods_of receiver text). split.
    + apply list_elem_of_fmap. exists text. split; [done|].
      apply elem_of_scanned_texts. eauto.
    + apply elem_of_scan_lines. eauto.
Qed.

(** The entry of the [interfaces] dict that the report reads for an
    interface is what the contract text declares for it. *)
Lemma required_of_extract_interfaces (content iface_name : string) :
  iface_name ∈ iface_names ->
  required_of (extract_interfaces content) iface_name
  = contract content iface_name.
Proof.
  unfold iface_names. rewrite !elem_of_cons, elem_of_nil.
  unfold required_of, extract_interfaces, iface_names, contract.
  cbn [foldl].
  intros [->|[->|[->|[]]]];
    destruct (Regex.search_block (Regex.iface_lit "MutationResolver") content);
    destruct (Regex.search_block (Regex.iface_lit "QueryResolver") content);
    destruct (Regex.search_block (Regex.iface_lit "SubscriptionResolver")
                content);
    rewrite ?lookup_insert_eq, ?lookup_insert_ne by done;
    rewrite ?lookup_insert_eq, ?lookup_insert_ne by done;
    rewrite ?lookup_insert_eq, ?lookup_insert_ne by done;
    rewrite ?lookup_empty; reflexivity.
Qed.

(** C2: when the contract text and every scanned file can be read, the
    run prints one report for each resolver interface, in order.  The
    names listed in the report of an interface are exactly the methods
    that the contract text declares in the block of that interface and
    that no line of a scanned file defines for its receiver, each once, in
    order and under its exact spelling; when there is none, the only line
    after the heading is the ALL IMPLEMENTED! line, otherwise each missing
    name has its line. *)
Theorem C2_report_lists_contract_minus_implemented (content : string)
    (files : list (string * option string)) :
  first_unreadable files = None ->
  exists reports : list (list string),
    main {| generated_go := Some content; resolver_go := files |}
    = {| stdout := concat reports; raised := None |}
    /\ Forall2
         (fun '(iface_name, receiver) lines =>
            exists (implemented : gset string) (missing : list string),
              (forall m, m ∈ implemented <-> implements files receiver m)
              /\ (forall m,
                    m ∈ missing
                    <-> m ∈ contract content iface_name
                        /\ ~ implements files receiver m)
              /\ NoDup missing
              /\ Sorted str_le missing
              /\ lines
                 = heading iface_name (size implemented) (length missing)
                   :: (if decide (contract content iface_name ∖ implemented
                                  = ∅)
                       then [ "  ALL IMPLEMENTED!" ]
                       else map (fun m => "  " +:+ m) missing))
         resolver_types reports.
Proof.
  intros Hok. rewrite (main_prints_the_reports content files Hok).
  rewrite flat_map_concat_map.
  eexists (map _ resolver_types). split; [reflexivity|].
  assert (Hnames : Forall (fun x => x.1 ∈ iface_names) resolver_types).
  { unfold resolver_types, iface_names. repeat constructor; cbn; in_list. }
  induction Hnames as [|[iface_name receiver] l Hin _ IH]; [constructor|].
  cbn [map]. constructor; [|exact IH]. cbn [fst] in Hin.
  set (implemented := scan_texts receiver (scanned_texts files) ∅).
  pose proof (missing_of_spec (extract_interfaces content) iface_name
                implemented) as H.
  cbn zeta in H. rewrite (required_of_extract_interfaces _ _ Hin) in H.
  destruct H as (Hm & Hnd & Hsorted & Hlines).
  rewrite (required_of_extract_interfaces _ _ Hin).
  exists implemented,
    (missing_of (contract content iface_name) implemented).
  split; [intros m; apply elem_of_scan_texts|].
  split.
  { intros m. rewrite Hm. subst implemented.
    by rewrite (elem_of_scan_texts receiver files m). }
  split; [done|]. split; [done|]. by rewrite <- Hlines.
Qed.

Lemma C2_witness :
  exists reports : list (list string),
    main {| generated_go := Some contract_with_three_blocks;
            resolver_go := locked_files_readable |}
    = {| stdout := concat reports; raised := None |}
    /\ Forall2
         (fun '(iface_name, receiver) lines =>
            exists (implemented : gset string) (missing : list string),
              (forall m,
                 m ∈ implemented
                 <-> implements locked_files_readable receiver m)
              /\ (forall m,
                    m ∈ missing
                    <-> m ∈ contract contract_with_three_blocks iface_name
                        /\ ~ implements locked_files_readable receiver m)
              /\ NoDup missing
              /\ Sorted str_le missing
              /\ lines
                 = heading iface_name (size implemented) (length missing)
                   :: (if decide (contract contract_with_three_blocks
                                    iface_name ∖ implemented = ∅)
                       then [ "  ALL IMPLEMENTED!" ]
                       else map (fun m => "  " +:+ m) missing))
         resolver_types reports.
Proof.
  apply (C2_report_lists_contract_minus_implemented
           contract_with_three_blocks locked_files_readable).
  reflexivity.
Defined.

End find_missing_report.

(** * Further properties of the translation tool *)

Section translate_more.
Import PyStr Translate Props.

Lemma replace_absent (old new s : string) :
  contains old s = false -> replace old new s = s.
Proof.
  unfold replace. induction s as [|c s IH]; [done|].
  cbn [contains replace_from]. intros H.
  apply orb_false_iff in H as [Hs Hc]. rewrite Hs. by rewrite IH.
Qed.

(** X10: the two guarded replacements of phase 1 on a value amount to
    replacing Foreign by Starlink and then Domestic by Iran; a value that
    holds neither word is left as it is. *)
Theorem X10_update_value_is_two_replacements (value : string) :
  update_value value
  = replace "Domestic" "Iran" (replace "Foreign" "Starlink" value)
  /\ (contains "Foreign" value = false ->
      contains "Domestic" value = false ->
      update_value value = value).
Proof.
  split.
  - unfold update_value.
    destruct (contains "Foreign" value) eqn:Ef.
    + destruct (contains "Domestic" _) eqn:Ed; [done|].
      by rewrite (replace_absent _ _ _ Ed).
    + rewrite (replace_absent _ _ _ Ef).
      destruct (contains "Domestic" value) eqn:Ed; [done|].
      by rewrite (replace_absent _ _ _ Ed).
  - intros Hf Hd. unfold update_value. by rewrite Hf, Hd.
Qed.

Lemma X10_witness : update_value "Wireless uplink" = "Wireless uplink".
Proof.
  apply (proj2 (X10_update_value_is_two_replacements "Wireless uplink"));
    reflexivity.
Defined.

Lemma foldl_update_entry (rest : dict) :
  forall (done_ : dict) (f g : Z),
    NoDup (keys (done_ ++ rest)) ->
    foldl update_entry
      {| updated := done_ ++ rest; foreign_count := f; domestic_count := g |}
      rest
    = {| updated :=
           done_ ++ map (fun '(key, value) => (key, update_value value)) rest;
         foreign_count := (f + total_gain foreign_gain rest)%Z;
         domestic_count := (g + total_gain domestic_gain rest)%Z |}.
Proof.
  induction rest as [|[k v] rest IH]; intros done_ f g Hnd.
  - cbn. f_equal; lia.
  - cbn [foldl map total_gain foldr snd].
    assert (Hfresh : k ∉ keys done_).
    { unfold keys in *. rewrite map_app in Hnd.
      apply NoDup_app in Hnd as (_ & Hdis & _). intros Hin.
      apply (Hdis k Hin). cbn. apply list_elem_of_here. }
    assert (Hstep :
      update_entry
        {| updated := done_ ++ (k, v) :: rest; foreign_count := f;
           domestic_count := g |} (k, v)
      = {| updated := (done_ ++ [(k, update_value v)]) ++ rest;
           foreign_count := (f + foreign_gain v)%Z;
           domestic_count := (g + domestic_gain v)%Z |}).
    { unfold update_entry, foreign_gain, domestic_gain, update_value.
      cbn [updated foreign_count domestic_count].
      rewrite dict_set_fresh by done. rewrite <- app_assoc. cbn [app].
      destruct (contains "Foreign" v);
        destruct (contains "Domestic" _); f_equal; lia. }
    rewrite Hstep, IH.
    + rewrite <- app_assoc. cbn [app]. unfold total_gain. f_equal; lia.
    + unfold keys in *. rewrite <- app_assoc. cbn.
      rewrite !map_app in *. exact Hnd.
Qed.

(** X11: on an English file that loads, phase 1 announces itself, copies
    the file to its backup path, saves it with every value updated and
    with the keys, their order and the other entries unchanged, prints the
    two counts, returns the updated translations, and makes no call to the
    translation service. *)
Theorem X11_phase1_updates_every_value (st : state) (data : locale_data) :
  fs st !! locale_file "en" = Some (Json data) ->
  NoDup (keys (get_translations data)) ->
  let updated :=
    map (fun '(key, value) => (key, update_value value))
        (get_translations data) in
  phase1_update_english st
  = (Ok updated,
     {| fs := <[locale_file "en" := Json (set_translations data updated)]>
                (<[backup_path (locale_file "en") := Json data]> (fs st));
        events := events st
                  ++ banner_lines "PHASE 1: Updating English Translations"
                  ++ [ Backup (locale_file "en")
                         (backup_path (locale_file "en"));
                       Print (backed_up_line (locale_file "en"));
                       Save (locale_file "en")
                         (set_translations data updated);
                       Print "✓ Updated message.en.json";
                       Print (foreign_line
                                (total_gain foreign_gain
                                   (get_translations data)));
                       Print (domestic_line
                                (total_gain domestic_gain
                                   (get_translations data))) ];
        calls := calls st |}).
Proof.
  intros Hfile Hnd updated.
  unfold phase1_update_english.
  unfold mbind at 1, M_bind at 1. rewrite banner_run.
  unfold mbind at 1, M_bind at 1, backup_file at 1.
  cbn [fs logged advanced]. rewrite Hfile.
  unfold mbind at 1, M_bind at 1, load_json at 1. cbn [fs].
  rewrite lookup_insert_ne by (symmetry; apply path_not_its_backup).
  rewrite Hfile.
  pose proof (foldl_update_entry (get_translations data) [] 0 0 Hnd) as Hfold.
  cbn [app] in Hfold. rewrite Hfold.
  unfold mbind, M_bind, save_json, print, emit, mret, M_ret.
  cbn [fs events calls Translate.updated foreign_count domestic_count
       logged advanced].
  rewrite !Z.add_0_l. f_equal.
  apply state_eq; [done|by rewrite <- !app_assoc|done].
Qed.

Lemma X11_witness :
  phase1_update_english (start demo_files_foreign)
  = (Ok [ ("uplink", "Starlink Link"); ("local", "Iran Link") ],
     {| fs := <[locale_file "en" :=
                  Json (set_translations demo_data_foreign
                          [ ("uplink", "Starlink Link");
                            ("local", "Iran Link") ])]>
                (<[backup_path (locale_file "en") := Json demo_data_foreign]>
                   demo_files_foreign);
        events := banner_lines "PHASE 1: Updating English Translations"
                  ++ [ Backup (locale_file "en")
                         (backup_path (locale_file "en"));
                       Print (backed_up_line (locale_file "en"));
                       Save (locale_file "en")
                         (set_translations demo_data_foreign
                            [ ("uplink", "Starlink Link");
                              ("local", "Iran Link") ]);
                       Print "✓ Updated message.en.json";
                       Print (foreign_line 1);
                       Print (domestic_line 1) ];
        calls := 0 |}).
Proof.
  apply (X11_phase1_updates_every_value (start demo_files_foreign)
           demo_data_foreign).
  - reflexivity.
  - repeat constructor; cbn; rewrite ?elem_of_cons, ?elem_of_nil;
      intros H; repeat destruct H as [H|H]; try discriminate; done.
Defined.

Lemma string_app_inj_l (a x y : string) : a +:+ x = a +:+ y -> x = y.
Proof.
  induction a as [|c a IH]; [done|].
  change (String c (a +:+ x) = String c (a +:+ y) -> x = y).
  intros [= H]. by apply IH.
Qed.

Lemma string_app_inj_r (b : string) :
  forall x y : string, x +:+ b = y +:+ b -> x = y.
Proof.
  intros x. induction x as [|c x IH]; intros y H.
  - apply (f_equal String.length) in H. rewrite !string_length_app in H.
    destruct y; [done|]. cbn in H. lia.
  - destruct y as [|d y].
    + apply (f_equal String.length) in H. rewrite !string_length_app in H.
      cbn in H. lia.
    + change (String c (x +:+ b) = String d (y +:+ b)) in H.
      injection H as -> H. by rewrite (IH y H).
Qed.

Lemma locale_file_inj (l1 l2 : string) :
  locale_file l1 = locale_file l2 -> l1 = l2.
Proof.
  unfold locale_file. intros H.
  by apply string_app_inj_l, string_app_inj_r in H.
Qed.

Lemma backup_path_inj (p1 p2 : string) :
  backup_path p1 = backup_path p2 -> p1 = p2.
Proof. apply string_app_inj_r. Qed.

Lemma copy_to_locale_run (english : dict) (locale : string) (st : state) :
  copy_to_locale english locale st
  = match fs st !! locale_file locale with
    | None => (Ok tt, logged st [Print (skipping_line locale)])
    | Some Invalid =>
        (Raise (JSONDecodeError (locale_file locale)),
         {| fs := <[backup_path (locale_file locale) := Invalid]> (fs st);
            events := events st
                      ++ [ Backup (locale_file locale)
                             (backup_path (locale_file locale));
                           Print (backed_up_line (locale_file locale)) ];
            calls := calls st |})
    | Some (Json data) =>
        (Ok tt,
         {| fs := <[locale_file locale :=
                      Json (set_translations data english)]>
                    (<[backup_path (locale_file locale) := Json data]> (fs st));
            events := events st
                      ++ [ Backup (locale_file locale)
                             (backup_path (locale_file locale));
                           Print (backed_up_line (locale_file locale));
                           Save (locale_file locale)
                             (set_translations data english);
                           Print (copied_line locale) ];
            calls := calls st |})
    end.
Proof.
  unfold copy_to_locale. unfold mbind at 1, M_bind at 1, exists_ at 1.
  destruct (fs st !! locale_file locale) as [f|] eqn:E.
  - rewrite bool_decide_true by eauto. cbn [negb].
    unfold mbind at 1, M_bind at 1, backup_file at 1. rewrite E.
    unfold mbind at 1, M_bind at 1, load_json at 1. cbn [fs].
    rewrite lookup_insert_ne by (symmetry; apply path_not_its_backup).
    rewrite E. destruct f as [data|]; [|done].
    unfold mbind, M_bind, save_json, print, emit. cbn [fs events calls].
    f_equal. apply state_eq; [done|by rewrite <- !app_assoc|done].
  - rewrite bool_decide_false by (by intros [? ?]). reflexivity.
Qed.

Lemma phase2_loop_effect (english : dict) (locales : list string) :
  NoDup locales ->
  forall st st' : state,
    for_each (copy_to_locale english) locales st = (Ok tt, st') ->
    calls st' = calls st
    /\ (forall path,
          (forall l, l ∈ locales ->
             path <> locale_file l /\ path <> backup_path (locale_file l)) ->
          fs st' !! path = fs st !! path)
    /\ (forall l, l ∈ locales ->
          match fs st !! locale_file l with
          | None => fs st' !! locale_file l = None
          | Some (Json data) =>
              fs st' !! locale_file l
              = Some (Json (set_translations data english))
              /\ fs st' !! backup_path (locale_file l) = Some (Json data)
          | Some Invalid => False
          end).
Proof.
  induction 1 as [|l0 rest Hfresh Hnd IH]; intros st st'.
  - intros [= <-]. split; [done|]. split; [done|].
    intros l Hl. by apply elem_of_nil in Hl.
  - cbn [for_each]. unfold mbind, M_bind. rewrite copy_to_locale_run.
    assert (Hother : forall l, l ∈ rest ->
              locale_file l0 <> locale_file l
              /\ locale_file l0 <> backup_path (locale_file l)
              /\ backup_path (locale_file l0) <> locale_file l
              /\ backup_path (locale_file l0) <> backup_path (locale_file l)).
    { intros l Hl.
      assert (l0 <> l) by (intros ->; done).
      split; [by intros ?%locale_file_inj|].
      split; [apply locale_file_not_backup|].
      split; [intros Heq; symmetry in Heq; by apply locale_file_not_backup in Heq|].
      by intros ?%backup_path_inj%locale_file_inj. }
    destruct (fs st !! locale_file l0) as [[data|]|] eqn:E0; [|done|].
    + intros Hrest. destruct (IH _ _ Hrest) as (Hc & Hframe & Heff).
      cbn [calls fs] in *. split; [done|]. split.
      * intros path Hp. rewrite Hframe.
        -- destruct (Hp l0) as [? ?]; [apply list_elem_of_here|].
           by rewrite !lookup_insert_ne.
        -- intros l Hl. apply Hp. by apply list_elem_of_further.
      * intros l [->|Hl]%elem_of_cons.
        -- rewrite E0. split.
           ++ rewrite Hframe; [apply lookup_insert_eq|].
              intros l Hl. destruct (Hother l Hl) as (? & ? & _). done.
           ++ rewrite Hframe.
              ** rewrite lookup_insert_ne by apply path_not_its_backup.
                 apply lookup_insert_eq.
              ** intros l Hl. destruct (Hother l Hl) as (_ & _ & ? & ?). done.
        -- specialize (Heff l Hl). destruct (Hother l Hl) as (? & _ & ? & _).
           by rewrite !lookup_insert_ne in Heff.
    + intros Hrest. destruct (IH _ _ Hrest) as (Hc & Hframe & Heff).
      split; [done|]. split.
      * intros path Hp. apply Hframe.
        intros l Hl. apply Hp. by apply list_elem_of_further.
      * intros l [->|Hl]%elem_of_cons; [|by apply Heff].
        rewrite E0, Hframe; [done|].
        intros l Hl. destruct (Hother l Hl) as (? & ? & _). done.
Qed.

(** X12: when phase 2 ends normally, every locale file of the list that
    existed holds the English translations with its other entries
    unchanged, and its backup file holds what it held before; a locale
    file that did not exist is not created; no other file of the
    directory is touched and the translation service is not called. *)
Theorem X12_phase2_copies_english_and_backs_up (english : dict)
    (st st' : state) :
  phase2_copy_to_locales english st = (Ok tt, st') ->
  calls st' = calls st
  /\ (forall path,
        (forall l, l ∈ ALL_LOCALES ->
           path <> locale_file l /\ path <> backup_path (locale_file l)) ->
        fs st' !! path = fs st !! path)
  /\ (forall l, l ∈ ALL_LOCALES ->
        match fs st !! locale_file l with
        | None => fs st' !! locale_file l = None
        | Some (Json data) =>
            fs st' !! locale_file l
            = Some (Json (set_translations data english))
            /\ fs st' !! backup_path (locale_file l) = Some (Json data)
        | Some Invalid => False
        end).
Proof.
  unfold phase2_copy_to_locales.
  unfold mbind at 1, M_bind at 1. rewrite banner_run.
  intros Hrun.
  apply (phase2_loop_effect english ALL_LOCALES) in Hrun; [exact Hrun|].
  unfold ALL_LOCALES.
  repeat (constructor; [rewrite ?elem_of_cons, elem_of_nil;
                        intros H; repeat destruct H as [H|H]; done|]).
  constructor.
Qed.

Lemma X12_witness :
  fs (phase2_copy_to_locales [ ("hello", "Hello") ] (start demo_files)).2
    !! locale_file "fa"
  = Some (Json (set_translations demo_data [ ("hello", "Hello") ]))
  /\ fs (phase2_copy_to_locales [ ("hello", "Hello") ] (start demo_files)).2
       !! backup_path (locale_file "fa")
     = Some (Json demo_data).
Proof.
  apply (proj2 (proj2 (X12_phase2_copies_english_and_backs_up
                         [ ("hello", "Hello") ] (start demo_files) _
                         (surjective_pairing _))) "fa").
  unfold ALL_LOCALES. in_list.
Defined.

Lemma waits_S (tr : service) (text lang : string) (first attempt k : nat) :
  waits tr text lang first attempt (S k)
  = Print (retrying_line ((attempt + 1) * 2)
             (message_of (tr first text lang)))
    :: Sleep ((attempt + 1) * 2)
    :: waits tr text lang (S first) (S attempt) k.
Proof.
  unfold waits. cbn [seq flat_map app]. rewrite !Nat.add_0_r. do 2 f_equal.
  assert (H : forall start,
    flat_map
      (fun i =>
         [ Print (retrying_line ((attempt + i + 1) * 2)
                    (message_of (tr (first + i) text lang)));
           Sleep ((attempt + i + 1) * 2) ]) (seq (S start) k)
    = flat_map
        (fun i =>
           [ Print (retrying_line ((S attempt + i + 1) * 2)
                      (message_of (tr (S first + i) text lang)));
             Sleep ((S attempt + i + 1) * 2) ]) (seq start k)).
  { induction k as [|k IH]; intros start; [done|].
    cbn [seq flat_map app]. rewrite IH.
    replace (first + S start) with (S first + start) by lia.
    by replace (attempt + S start + 1) with (S attempt + start + 1) by lia. }
  apply H.
Qed.

Lemma failed_call (tr : service) (text lang : string) (n : nat) :
  has_failed (tr n text lang) ->
  tr n text lang = Failed (message_of (tr n text lang)).
Proof. done. Qed.

Lemma attempts_first_success (tr : service) (text lang t : string)
    (max_retries : nat) :
  forall (k remaining attempt : nat) (st : state),
    k < remaining ->
    attempt + remaining = max_retries ->
    (forall j, j < k -> has_failed (tr (calls st + j) text lang)) ->
    tr (calls st + k) text lang = Translated t ->
    translate_attempts tr text lang max_retries remaining attempt st
    = (Ok (Some t),
       {| fs := fs st;
          events := events st ++ waits tr text lang (calls st) attempt k;
          calls := calls st + k + 1 |}).
Proof.
  induction k as [|k IH]; intros remaining attempt st Hk Hn Hfail Hok;
    (destruct remaining as [|remaining]; [lia|]);
    cbn [translate_attempts]; unfold mbind at 1, M_bind at 1, call_service at 1.
  - rewrite Nat.add_0_r in Hok. rewrite Hok. unfold mret, M_ret, waits.
    cbn [seq flat_map]. f_equal. apply state_eq; [done|by rewrite app_nil_r|lia].
  - pose proof (failed_call _ _ _ _ (Hfail 0 ltac:(lia))) as H0.
    rewrite Nat.add_0_r in H0. rewrite H0.
    replace (attempt <? max_retries - 1) with true
      by (symmetry; apply Nat.ltb_lt; lia).
    unfold mbind at 1, M_bind at 1. rewrite print_run.
    unfold mbind at 1, M_bind at 1, emit at 1.
    cbn [calls fs events logged advanced Nat.add].
    rewrite (IH remaining (S attempt)); cbn [calls fs events].
    + f_equal. apply state_eq; [done| |lia].
      rewrite waits_S, <- !app_assoc. reflexivity.
    + lia.
    + lia.
    + intros j Hj.
      replace (S (calls st) + j) with (calls st + S j) by lia.
      apply Hfail. lia.
    + by replace (S (calls st) + k) with (calls st + S k) by lia.
Qed.

Lemma attempts_all_fail (tr : service) (text lang : string)
    (max_retries : nat) :
  forall (remaining attempt : nat) (st : state),
    attempt + remaining = max_retries ->
    (forall j, j < remaining -> has_failed (tr (calls st + j) text lang)) ->
    translate_attempts tr text lang max_retries remaining attempt st
    = (Ok None,
       {| fs := fs st;
          events :=
            events st
            ++ waits tr text lang (calls st) attempt (remaining - 1)
            ++ (if remaining =? 0 then []
                else [ Print (gave_up_line max_retries
                                (message_of
                                   (tr (calls st + (remaining - 1))
                                       text lang))) ]);
          calls := calls st + remaining |}).
Proof.
  induction remaining as [|remaining IH]; intros attempt st Hn Hfail.
  - cbn [translate_attempts]. unfold mret, M_ret, waits.
    cbn [seq flat_map Nat.sub Nat.eqb app].
    destruct st as [f e c]. cbn [fs events calls]. f_equal.
    apply state_eq; [done|by rewrite app_nil_r|lia].
  - cbn [translate_attempts]. unfold mbind at 1, M_bind at 1, call_service at 1.
    pose proof (failed_call _ _ _ _ (Hfail 0 ltac:(lia))) as H0.
    rewrite Nat.add_0_r in H0. rewrite H0.
    destruct remaining as [|remaining].
    + replace (attempt <? max_retries - 1) with false
        by (symmetry; apply Nat.ltb_ge; lia).
      unfold mbind at 1, M_bind at 1. rewrite print_run.
      unfold mret, M_ret, waits.
      cbn [seq flat_map Nat.sub Nat.eqb app logged advanced fs events calls].
      rewrite Nat.add_0_r. same_outcome.
    + replace (attempt <? max_retries - 1) with true
        by (symmetry; apply Nat.ltb_lt; lia).
      unfold mbind at 1, M_bind at 1. rewrite print_run.
      unfold mbind at 1, M_bind at 1, emit at 1.
      cbn [calls fs events logged advanced Nat.add].
      rewrite (IH (S attempt)); cbn [calls fs events].
      * replace (S (S remaining) - 1) with (S remaining) by lia.
        replace (S remaining - 1) with remaining by lia.
        cbn [Nat.eqb]. f_equal. apply state_eq; [done| |lia].
        rewrite waits_S, <- !app_assoc. cbn [app]. do 4 f_equal.
        by replace (S (calls st) + remaining)
          with (calls st + S remaining) by lia.
      * lia.
      * intros j Hj.
        replace (S (calls st) + j) with (calls st + S j) by lia.
        apply Hfail. lia.
Qed.

(** X13: with a retry bound of max_retries, translate_text returns the
    first answer among the next max_retries calls: after k failed calls
    it has made k + 1 calls and, for each failure, has printed a warning
    with the message of the failure and waited: 2, 4, ..., 2k seconds.
    When all max_retries calls fail it returns nothing, having warned and
    waited before each retry, and after the last failure it prints that it
    gives up, without waiting. *)
Theorem X13_retries_wait_longer_each_time (tr : service) (text lang : string)
    (max_retries : nat) (st : state) :
  (forall k t,
     k < max_retries ->
     (forall j, j < k -> has_failed (tr (calls st + j) text lang)) ->
     tr (calls st + k) text lang = Translated t ->
     translate_text (Some tr) text lang max_retries st
     = (Ok (Some t),
        {| fs := fs st;
           events := events st ++ waits tr text lang (calls st) 0 k;
           calls := calls st + k + 1 |}))
  /\ ((forall j, j < max_retries -> has_failed (tr (calls st + j) text lang)) ->
      translate_text (Some tr) text lang max_retries st
      = (Ok None,
         {| fs := fs st;
            events :=
              events st
              ++ waits tr text lang (calls st) 0 (max_retries - 1)
              ++ (if max_retries =? 0 then []
                  else [ Print (gave_up_line max_retries
                                  (message_of
                                     (tr (calls st + (max_retries - 1))
                                         text lang))) ]);
            calls := calls st + max_retries |})).
Proof.
  split.
  - intros k t Hk Hfail Hok. by apply attempts_first_success.
  - intros Hfail. by apply attempts_all_fail.
Qed.

Lemma X13_witness :
  translate_text (Some flaky) "Hello" "fa" 5 (start demo_files)
  = (Ok (Some "Hello (fa)"),
     {| fs := demo_files;
        events := [ Print (retrying_line 2 "timed out"); Sleep 2;
                    Print (retrying_line 4 "timed out"); Sleep 4;
                    Print (retrying_line 6 "timed out"); Sleep 6 ];
        calls := 4 |}).
Proof.
  apply (proj1 (X13_retries_wait_longer_each_time flaky "Hello" "fa" 5
                  (start demo_files)) 3 "Hello (fa)").
  - lia.
  - intros j Hj. cbn. destruct j as [|[|[|j]]]; [reflexivity..|lia].
  - reflexivity.
Defined.

(** X14: the loop of phase 3 calls the translation service at most three
    times for each entry.  With a delay that [time.sleep] takes, it calls
    the service at least once for each entry and pauses for the rate limit
    exactly once for each entry; with a delay that [time.sleep] refuses,
    it stops in the pause after the first entry, having made between one
    and three calls. *)
Theorem X14_loop_calls_service_at_most_thrice_per_entry (tr : service)
    (lang : string) (d : Delay) (total : nat) (entries : dict)
    (p : progress) (st : state) :
  let out := translate_entries (Some tr) lang d total p entries st in
  calls out.2 <= calls st + 3 * length entries
  /\ (sleep_error d = None ->
      (exists p', out.1 = Ok p')
      /\ calls st + length entries <= calls out.2
      /\ rate_limits (events out.2)
         = rate_limits (events st) + length entries)
  /\ (forall e, sleep_error d = Some e -> entries <> [] ->
      out.1 = Raise e
      /\ calls st < calls out.2 <= calls st + 3
      /\ rate_limits (events out.2) = rate_limits (events st)).
Proof.
  cbn zeta.
  destruct (sleep_error d) as [e|] eqn:Hd.
  - destruct entries as [|entry rest].
    + cbn. split; [lia|]. split; [done|]. by intros e' _ Hne.
    + destruct (translate_entries_raise tr lang d total e entry rest p st Hd)
        as (evs & n & -> & _ & Hr & Hn).
      cbn [fst snd advanced calls events length].
      split; [lia|]. split; [done|]. intros e' [= <-] _.
      rewrite rate_limits_app, Hr. split; [done|]. split; lia.
  - destruct (translate_entries_spec tr lang d total entries Hd p st)
      as (p' & evs & n & -> & _ & Hr & Hn & _).
    cbn [fst snd advanced calls events].
    split; [lia|]. split; [|done]. intros _.
    rewrite rate_limits_app, Hr. split; [eauto|]. split; lia.
Qed.

Lemma X14_witness :
  (exists p',
     (translate_entries (Some flaky) "fa" default_delay 2
        (fresh (get_translations demo_data)) (get_translations demo_data)
        (start demo_files)).1 = Ok p')
  /\ 0 + 2
     <= calls (translate_entries (Some flaky) "fa" default_delay 2
                 (fresh (get_translations demo_data))
                 (get_translations demo_data) (start demo_files)).2
  /\ rate_limits
       (events (translate_entries (Some flaky) "fa" default_delay 2
                  (fresh (get_translations demo_data))
                  (get_translations demo_data) (start demo_files)).2)
     = 0 + 2.
Proof.
  apply (proj1 (proj2 (X14_loop_calls_service_at_most_thrice_per_entry
                         flaky "fa" default_delay 2
                         (get_translations demo_data)
                         (fresh (get_translations demo_data))
                         (start demo_files)))).
  reflexivity.
Defined.

(** X15: the first answer of the service settles an entry without a
    further call: a non-empty answer replaces the value and counts as
    translated; an empty answer is not retried, leaves the value as it is
    and counts as failed.  The turn prints the progress line if it is
    due, and ends with the pause for the rate limit, or with the error of
    [time.sleep] when it refuses the delay. *)
Theorem X15_first_answer_settles_the_entry (tr : service)
    (lang key text t : string) (d : Delay) (total : nat) (p : progress)
    (st : state) :
  tr (calls st) text lang = Translated t ->
  translate_entry (Some tr) lang d total p (key, text) st
  = (match sleep_error d with
     | None =>
         Ok (if truthy t
             then {| current := dict_set key t (current p);
                     translated := S (translated p); failed := failed p |}
             else {| current := current p;
                     translated := translated p; failed := S (failed p) |})
     | Some e => Raise e
     end,
     {| fs := fs st;
        events := events st ++ progress_report p total
                  ++ match sleep_error d with
                     | None => [RateLimit]
                     | Some _ => []
                     end;
        calls := S (calls st) |}).
Proof.
  intros H. unfold translate_entry, translate_text.
  unfold mbind at 1, M_bind at 1. rewrite progress_print_run.
  cbn [translate_attempts].
  unfold mbind, M_bind, call_service, time_sleep, emit, raise, mret, M_ret.
  unfold logged, advanced. cbn [fs events calls Nat.add]. rewrite H.
  destruct (sleep_error d); [|destruct (truthy t)]; cbn [fs events calls];
    same_outcome.
Qed.

Lemma X15_witness :
  translate_entry (Some (fun _ _ _ => Translated EmptyString)) "fa"
    default_delay 1 (fresh [ ("hello", "Hello") ]) ("hello", "Hello")
    (start demo_files)
  = (Ok {| current := [ ("hello", "Hello") ]; translated := 0; failed := 1 |},
     {| fs := demo_files;
        events := [ Print (progress_line 0 1); RateLimit ];
        calls := 1 |}).
Proof.
  apply (X15_first_answer_settles_the_entry
           (fun _ _ _ => Translated EmptyString) "fa" "hello" "Hello"
           EmptyString default_delay 1 (fresh [ ("hello", "Hello") ])
           (start demo_files)).
  reflexivity.
Defined.

(** X16: phase 3 gives up on a locale when the translator is not
    installed, when the locale file does not exist, or when the locale
    has no language code: it prints one line that names the reason and
    returns False, with no file changed and no call to the service.  A
    file that exists but does not load raises the error of the load after
    the three lines that announce the locale, again with no file changed
    and no call made. *)
Theorem X16_phase3_gives_up_without_side_effect
    (translator : option service) (locale : string) (d : Delay)
    (st : state) :
  (translator = None ->
   phase3_translate_locale translator locale d st
   = (Ok false, logged st [Print (not_installed_line locale)]))
  /\ (is_Some translator ->
      fs st !! locale_file locale = None ->
      phase3_translate_locale translator locale d st
      = (Ok false, logged st [Print (not_found_line (locale_file locale))]))
  /\ (is_Some translator ->
      is_Some (fs st !! locale_file locale) ->
      dict_get locale LOCALE_TO_GOOGLE_LANG = None ->
      phase3_translate_locale translator locale d st
      = (Ok false, logged st [Print (unknown_locale_line locale)]))
  /\ (forall lang,
      is_Some translator ->
      fs st !! locale_file locale = Some Invalid ->
      dict_get locale LOCALE_TO_GOOGLE_LANG = Some lang ->
      phase3_translate_locale translator locale d st
      = (Raise (JSONDecodeError (locale_file locale)),
         announced locale lang st)).
Proof.
  unfold phase3_translate_locale. split; [|split; [|split]].
  - intros ->. by rewrite bool_decide_true.
  - intros [tr ->] E. rewrite bool_decide_false by discriminate.
    unfold mbind at 1, M_bind at 1, exists_ at 1.
    rewrite bool_decide_false by (rewrite E; by intros [? ?]). reflexivity.
  - intros [tr ->] E El. rewrite bool_decide_false by discriminate.
    unfold mbind at 1, M_bind at 1, exists_ at 1.
    rewrite bool_decide_true by done. cbn [negb]. by rewrite El.
  - intros lang [tr ->] E El. rewrite bool_decide_false by discriminate.
    unfold mbind at 1, M_bind at 1, exists_ at 1.
    rewrite bool_decide_true by (rewrite E; eauto). cbn [negb].
    rewrite El, (table_languages_truthy _ _ El). cbn [negb].
    do 3 (unfold mbind at 1, M_bind at 1; rewrite print_run).
    unfold mbind, M_bind, load_json. cbn [fs logged advanced]. rewrite E.
    same_outcome.
Qed.

Lemma X16_witness :
  phase3_translate_locale (Some flaky) "de" default_delay (start demo_files)
  = (Ok false,
     logged (start demo_files) [Print (not_found_line (locale_file "de"))]).
Proof.
  apply (proj1 (proj2 (X16_phase3_gives_up_without_side_effect (Some flaky)
                         "de" default_delay (start demo_files)))).
  - by eexists.
  - reflexivity.
Defined.

(** X17: when phase 3 is asked for and the translator is not installed,
    the run ends with exit status 1 only after phases 1 and 2 have run as
    the command line says: it leaves the files as a run without phase 3
    leaves them and has printed what that run prints, up to the lines
    about phase 3, where it prints that it cannot proceed. *)
Theorem X17_missing_translator_exits_after_phases_1_and_2 (a : args)
    (st : state) :
  wants_phase3 a = true ->
  match main None (without_phase3 a) st with
  | (Ok _, st') =>
      exists st2,
        st' = logged st2 phase3_skipped_lines
        /\ main None a st
           = (Raise (SystemExit 1), logged st2 missing_translator_lines)
  | (Raise e, st') => main None a st = (Raise e, st')
  end.
Proof.
  intros Hw. unfold main.
  cbn [skip_phase1 skip_phase2 all locales without_phase3 orb delay].
  change (all a || match locales a with Some (_ :: _) => true | _ => false end)
    with (wants_phase3 a).
  rewrite Hw, bool_decide_true by done.
  repeat match goal with |- context [(?m ≫= ?k) st] =>
    rewrite (bind_run m k st)
  end.
  match goal with |- context [match ?m st with _ => _ end] =>
    destruct (m st) as [[english|e] st1]; [|done]
  end.
  repeat match goal with |- context [(?m ≫= ?k) st1] =>
    rewrite (bind_run m k st1)
  end.
  match goal with |- context [match ?m st1 with _ => _ end] =>
    destruct (m st1) as [[[]|e] st2]; [|done]
  end.
  exists st2. unfold mbind, M_bind. rewrite !banner_run, !print_run.
  unfold raise, phase3_skipped_lines, missing_translator_lines, banner_lines.
  split; same_outcome.
Qed.

Lemma X17_witness :
  match main None (without_phase3 translate_fa) (start demo_files) with
  | (Ok _, st') =>
      exists st2,
        st' = logged st2 phase3_skipped_lines
        /\ main None translate_fa (start demo_files)
           = (Raise (SystemExit 1), logged st2 missing_translator_lines)
  | (Raise e, st') =>
      main None translate_fa (start demo_files) = (Raise e, st')
  end.
Proof.
  apply (X17_missing_translator_exits_after_phases_1_and_2 translate_fa
           (start demo_files)).
  reflexivity.
Defined.

End translate_more.
